(** * gorl: a token bucket rate limiter (Zytekaron/gorl)

    A shallow embedding of the Go package [gorl]: the interval helpers
    ([intervalCount], [nextAfter], [min]), the [Bucket] state machine with
    its lazy refill, and the [BucketManager] registry with [Purge].

    Conventions of the embedding.
    - [int64] and [time.Duration] values are integers in [Z]; every
      arithmetic operation of the source that can overflow is written with
      its two's-complement wrap-around ([wrap64]).
    - A [time.Time] is an instant on the time line, counted in nanoseconds
      from the zero [time.Time]; the monotonic reading and the location do
      not take part in [Sub], [Add], [After]. Instants so far away that the
      seconds field of [time.Time] itself overflows are outside the model.
    - [float64] is IEEE 754 binary64, through the standard library's
      executable specification [SpecFloat] at precision 53 and [emax] 1024.
    - A method with a pointer receiver is a computation in a state monad
      over the receiver; the mutexes are left out (one caller at a time).
    - The registry of [BucketManager] is given twice: as a map of bucket
      states, which is what the manager shows while no bucket is held
      under two ids, and, in [Shared], as the map of pointers into a heap
      of buckets that the source has; the two are related in the last
      sections. *)

From stdpp Require Import gmap strings.
From Stdlib Require Import ZArith Lia Bool SpecFloat.

Local Open Scope Z_scope.

(** ** 64-bit integers *)

Definition min_int64 : Z := - 2 ^ 63.
Definition max_int64 : Z := 2 ^ 63 - 1.

Definition in_int64 (z : Z) : Prop := min_int64 <= z <= max_int64.

(** Two's-complement wrap-around of an exact result into [int64]. *)
Definition wrap64 (z : Z) : Z := (z + 2 ^ 63) mod 2 ^ 64 - 2 ^ 63.

Definition add64 (a b : Z) : Z := wrap64 (a + b).
Definition sub64 (a b : Z) : Z := wrap64 (a - b).
Definition mul64 (a b : Z) : Z := wrap64 (a * b).

(** ** Package [time] *)

Module time.

(** An instant, in nanoseconds from the zero [time.Time]. *)
Definition Time : Type := Z.

(** An [int64] count of nanoseconds. *)
Definition Duration : Type := Z.

Definition Nanosecond : Duration := 1.
Definition Microsecond : Duration := 1000.
Definition Second : Duration := 1000000000.

Definition minDuration : Duration := min_int64.
Definition maxDuration : Duration := max_int64.

(** [t.Sub(u)]: the duration [t - u], saturated at the largest and the
    smallest [Duration]. *)
Definition Sub (t u : Time) : Duration :=
  if t - u <? minDuration then minDuration
  else if maxDuration <? t - u then maxDuration
  else t - u.

(** [t.Add(d)]. *)
Definition Add (t : Time) (d : Duration) : Time := t + d.

(** [t.After(u)]. *)
Definition After (t u : Time) : bool := u <? t.

(** The zero value of [time.Time]. *)
Definition zero : Time := 0.

End time.

(** ** [float64] and the conversions the source uses *)

Definition prec : Z := 53.
Definition emax : Z := 1024.

Definition float64 : Type := spec_float.

(** [float64(x)] for an [int64] (or [Duration]) [x]: rounded to nearest,
    ties to even. *)
Definition float64_of_int64 (z : Z) : float64 :=
  binary_normalize prec emax z 0 false.

Module math.
(** [math.Abs]. *)
Definition Abs (x : float64) : float64 := SFabs x.
End math.

(** [x / y] on [float64]. *)
Definition fdiv (x y : float64) : float64 := SFdiv prec emax x y.

(** The integer part of a finite float (the fraction is discarded). *)
Definition float64_trunc (x : float64) : option Z :=
  match x with
  | S754_zero _ => Some 0
  | S754_finite s m e => Some (cond_Zopp s (Z.shiftl (Z.pos m) e))
  | S754_infinity _ | S754_nan => None
  end.

(** [int64(x)] for a [float64] [x]: truncation toward zero. When the value
    does not fit (or is an infinity or a NaN) Go leaves the result to the
    implementation; amd64 yields the smallest [int64], which is what is
    modelled here. *)
Definition int64_of_float64 (x : float64) : Z :=
  match float64_trunc x with
  | Some z => if (min_int64 <=? z) && (z <=? max_int64) then z else min_int64
  | None => min_int64
  end.

(** ** utils.go *)

(** [intervalCount] counts how many times the interval has completely
    passed between the start and end. *)
Definition intervalCount (start end_ : time.Time) (interval : time.Duration) : Z :=
  let delta := math.Abs (float64_of_int64 (time.Sub end_ start)) in
  int64_of_float64 (fdiv delta (float64_of_int64 interval)).

(** [nextAfter] returns the most recent time after start which is an
    exact interval increase from the start. *)
Definition nextAfter (start end_ : time.Time) (interval : time.Duration) : time.Time :=
  let diff := intervalCount start end_ interval in
  let mod_ := mul64 diff interval in
  let t := time.Add start mod_ in
  if time.After t end_ then t else time.Add t interval.

Definition min (a b : Z) : Z := if a <? b then a else b.

(** ** Methods with a pointer receiver: a state monad over the receiver *)

Definition State (S A : Type) : Type := S -> A * S.

Definition ret {S A : Type} (a : A) : State S A := fun s => (a, s).

Definition bind {S A B : Type} (c : State S A) (k : A -> State S B) : State S B :=
  fun s => let (a, s') := c s in k a s'.

(** Reading and overwriting the receiver. *)
Definition this {S : Type} : State S S := fun s => (s, s).

Definition store {S : Type} (s : S) : State S unit := fun _ => (tt, s).

Notation "x <- c ;; k" := (bind c (fun x => k))
  (at level 100, c at next level, k at level 200, right associativity).
Notation "c ;; k" := (bind c (fun _ => k))
  (at level 100, k at level 200, right associativity).

(** ** bucket.go *)

(** [Bucket]: [Limit] tokens come back every [Refill], up to [Burst]. *)
Record Bucket : Type := {
  Limit : Z;
  Burst : Z;
  Refill : time.Duration;
  tokens : Z;
  lastUpdate : time.Time
}.

(** The fields hold [int64] values. *)
Definition bucket_ok (b : Bucket) : Prop :=
  in_int64 (Limit b) /\ in_int64 (Burst b) /\ in_int64 (Refill b)
  /\ in_int64 (tokens b).

Definition NewBucket (limit burst : Z) (refill : time.Duration) : Bucket :=
  {| Limit := limit; Burst := burst; Refill := refill;
     tokens := burst; lastUpdate := time.zero |}.

(** Assignments to the two mutable fields. *)
Definition with_tokens (b : Bucket) (v : Z) : Bucket :=
  {| Limit := Limit b; Burst := Burst b; Refill := Refill b;
     tokens := v; lastUpdate := lastUpdate b |}.

Definition with_lastUpdate (b : Bucket) (t : time.Time) : Bucket :=
  {| Limit := Limit b; Burst := Burst b; Refill := Refill b;
     tokens := tokens b; lastUpdate := t |}.

Definition set_tokens (v : Z) : State Bucket unit :=
  fun b => (tt, with_tokens b v).

Definition set_lastUpdate (t : time.Time) : State Bucket unit :=
  fun b => (tt, with_lastUpdate b t).

(** [skipDiff] adds [diff * Refill] to [lastUpdate]. *)
Definition skipDiff (diff : Z) : State Bucket unit :=
  b <- this ;;
  let mod_ := mul64 diff (Refill b) in
  set_lastUpdate (time.Add (lastUpdate b) mod_).

(** [refill] the tokens based on the last time it was updated and [t]. *)
Definition refill (t : time.Time) : State Bucket unit :=
  b <- this ;;
  if tokens b =? Burst b then
    set_lastUpdate t
  else
    let delta := intervalCount (lastUpdate b) t (Refill b) in
    skipDiff delta ;;
    b <- this ;;
    set_tokens (add64 (tokens b) (mul64 delta (Limit b))) ;;
    b <- this ;;
    if Burst b <=? tokens b then
      set_tokens (Burst b) ;;
      set_lastUpdate t
    else
      ret tt.

Definition CanDrawAt (t : time.Time) (n : Z) : State Bucket bool :=
  refill t ;;
  b <- this ;;
  ret (n <=? tokens b).

Definition DrawAt (t : time.Time) (n : Z) : State Bucket bool :=
  refill t ;;
  b <- this ;;
  if tokens b <? n then
    ret false
  else
    set_tokens (sub64 (tokens b) n) ;;
    ret true.

Definition DrawMaxAt (t : time.Time) (n : Z) : State Bucket Z :=
  refill t ;;
  b <- this ;;
  let drawn := min n (tokens b) in
  set_tokens (sub64 (tokens b) drawn) ;;
  ret drawn.

Definition ForceDrawAt (t : time.Time) (n : Z) : State Bucket Z :=
  refill t ;;
  b <- this ;;
  set_tokens (sub64 (tokens b) n) ;;
  b <- this ;;
  ret (tokens b).

Definition SetTokensAt (t : time.Time) (v : Z) : State Bucket unit :=
  refill t ;;
  set_tokens v.

Definition TokensAt (t : time.Time) : State Bucket Z :=
  refill t ;;
  b <- this ;;
  ret (tokens b).

Definition RemainingAt (t : time.Time) : State Bucket Z :=
  tokens <- TokensAt t ;;
  if tokens <? 0 then ret 0 else ret tokens.

(** [InferTokensAt]. The quotient of two [Duration]s is Go's integer
    division, which panics on a zero divisor: [None] is that panic. *)
Definition InferTokensAt (t : time.Time) : State Bucket (option Z) :=
  b <- this ;;
  if Refill b =? 0 then
    ret None
  else
    let delta := wrap64 (Z.quot (time.Sub t (lastUpdate b)) (Refill b)) in
    let tokens' := add64 (tokens b) (mul64 delta (Limit b)) in
    if Burst b <? tokens' then ret (Some (Burst b)) else ret (Some tokens').

Definition NextRefillAt (t : time.Time) : State Bucket time.Time :=
  refill t ;;
  b <- this ;;
  ret (nextAfter (lastUpdate b) t (Refill b)).

Definition ResetAt (t : time.Time) : State Bucket unit :=
  b <- this ;;
  set_tokens (Burst b) ;;
  set_lastUpdate t.

Definition IsResetAt (t : time.Time) : State Bucket bool :=
  refill t ;;
  b <- this ;;
  ret (tokens b =? Burst b).

(** The methods without a timestamp read the clock once and call their
    [At] counterpart; [now] is that reading of [time.Now()]. *)
Definition IsReset (now : time.Time) : State Bucket bool := IsResetAt now.

(** ** bucketmanager.go *)

(** [BucketManager] as a registry of bucket states: each id with the state
    of the bucket it leads to, and the configuration a new bucket gets
    ([mLimit], [mBurst], [mRefill] are the fields [Limit], [Burst],
    [Refill] of the source, renamed apart from those of [Bucket]). The
    source holds pointers, [map[string]*Bucket]: this registry is what the
    manager shows while every id owns its bucket and the buckets are used
    through the manager only. [Shared] below has the pointers, for buckets
    held under several ids or used through a pointer from [Get]. *)
Record BucketManager : Type := {
  mLimit : Z;
  mBurst : Z;
  mRefill : time.Duration;
  buckets : gmap string Bucket
}.

Definition New (limit burst : Z) (refill : time.Duration) : BucketManager :=
  {| mLimit := limit; mBurst := burst; mRefill := refill; buckets := ∅ |}.

Definition with_buckets (m : BucketManager) (bs : gmap string Bucket) : BucketManager :=
  {| mLimit := mLimit m; mBurst := mBurst m; mRefill := mRefill m; buckets := bs |}.

Module Manager.

Definition get (id : string) : State BucketManager (option Bucket) :=
  m <- this ;;
  ret (buckets m !! id).

Definition set (id : string) (bucket : Bucket) : State BucketManager unit :=
  m <- this ;;
  store (with_buckets m (<[id := bucket]> (buckets m))).

Definition delete (id : string) : State BucketManager unit :=
  m <- this ;;
  store (with_buckets m (base.delete id (buckets m))).

Definition getOrCreate (id : string) : State BucketManager Bucket :=
  found <- get id ;;
  match found with
  | Some bucket => ret bucket
  | None =>
      m <- this ;;
      let bucket := NewBucket (mLimit m) (mBurst m) (mRefill m) in
      set id bucket ;;
      ret bucket
  end.

(** A manager method [m.Op(id, ...)] is [m.getOrCreate(id).Op(...)]: the
    bucket method runs on the bucket stored under [id], in place, and the
    state it leaves is the state under [id]. (Other ids that hold the same
    bucket: [Shared.on_bucket].) *)
Definition on_bucket {A : Type} (id : string) (op : State Bucket A) : State BucketManager A :=
  bucket <- getOrCreate id ;;
  let (a, bucket') := op bucket in
  set id bucket' ;;
  ret a.

Definition DrawAt (id : string) (t : time.Time) (n : Z) : State BucketManager bool :=
  on_bucket id (DrawAt t n).

Definition TokensAt (id : string) (t : time.Time) : State BucketManager Z :=
  on_bucket id (TokensAt t).

(** One turn of the loop of [Purge] on the entry [(id, bucket)]:
    [bucket.IsReset()] reconciles the bucket at the clock's reading
    [now], and the entry is deleted when the answer is true. *)
Definition purge_step (now : time.Time) (id : string) (bucket : Bucket)
    (bs : gmap string Bucket) : gmap string Bucket :=
  let (is_reset, bucket') := IsReset now bucket in
  if is_reset then base.delete id bs else <[id := bucket']> bs.

(** [Purge] ranges over the map and deletes the entries that answer true
    to [IsReset]. [now id] is the reading of the clock when the entry
    [id] is visited. The counter [removed] is returned as it was
    declared: no turn of the loop assigns to it. *)
Definition Purge (now : string -> time.Time) : State BucketManager Z :=
  m <- this ;;
  let removed := 0 in
  store (with_buckets m
           (map_fold (fun id bucket bs => purge_step (now id) id bucket bs)
                     (buckets m) (buckets m))) ;;
  ret removed.

(** The exported [Get], [Set] and [Delete] ([Set_]: [Set] is a keyword
    of Rocq), on bucket states: [Get] answers the state of the bucket it
    finds or makes, [Set] stores a state. (The pointers that the source
    returns and takes: [Shared.Get], [Shared.Set_].) *)
Definition Get (id : string) : State BucketManager Bucket := getOrCreate id.

Definition Set_ (id : string) (bucket : Bucket) : State BucketManager unit :=
  set id bucket.

Definition Delete (id : string) : State BucketManager unit := delete id.

(** The other forwarding methods, each [m.getOrCreate(id).Op(...)]. *)
Definition CanDrawAt (id : string) (t : time.Time) (n : Z) : State BucketManager bool :=
  on_bucket id (CanDrawAt t n).

Definition DrawMaxAt (id : string) (t : time.Time) (n : Z) : State BucketManager Z :=
  on_bucket id (DrawMaxAt t n).

Definition ForceDrawAt (id : string) (t : time.Time) (n : Z) : State BucketManager Z :=
  on_bucket id (ForceDrawAt t n).

Definition SetTokensAt (id : string) (t : time.Time) (v : Z) : State BucketManager unit :=
  on_bucket id (SetTokensAt t v).

Definition RemainingAt (id : string) (t : time.Time) : State BucketManager Z :=
  on_bucket id (RemainingAt t).

Definition InferTokensAt (id : string) (t : time.Time) : State BucketManager (option Z) :=
  on_bucket id (InferTokensAt t).

Definition NextRefillAt (id : string) (t : time.Time) : State BucketManager time.Time :=
  on_bucket id (NextRefillAt t).

Definition ResetAt (id : string) (t : time.Time) : State BucketManager unit :=
  on_bucket id (ResetAt t).

Definition IsResetAt (id : string) (t : time.Time) : State BucketManager bool :=
  on_bucket id (IsResetAt t).

End Manager.

(** ** bucketmanager.go with the registry's pointers

    The registry is a [map[string]*Bucket]: an entry is the address of a
    bucket, and a bucket method called through the manager, or through a
    pointer that [Get] returned or [Set] was given, changes the bucket at
    that address for every holder of the address. [Shared] is the manager
    on a heap of buckets; [view] below relates it to the registry of
    bucket states above, which it coincides with while no bucket is held
    under two ids. *)
Module Shared.

(** A [*Bucket]: the place of a bucket in the heap. *)
Definition ptr : Type := nat.

Record BucketManager : Type := {
  mLimit : Z;
  mBurst : Z;
  mRefill : time.Duration;
  buckets : gmap string ptr
}.

(** The buckets that were allocated, in allocation order, and the
    manager. *)
Record Memory : Type := {
  heap : list Bucket;
  manager : BucketManager
}.

Definition New (limit burst : Z) (refill : time.Duration) : BucketManager :=
  {| mLimit := limit; mBurst := burst; mRefill := refill; buckets := ∅ |}.

Definition with_heap (s : Memory) (h : list Bucket) : Memory :=
  {| heap := h; manager := manager s |}.

Definition with_buckets (s : Memory) (bs : gmap string ptr) : Memory :=
  {| heap := heap s;
     manager := {| mLimit := mLimit (manager s); mBurst := mBurst (manager s);
                   mRefill := mRefill (manager s); buckets := bs |} |}.

(** [&Bucket{...}]: the new bucket gets the next place of the heap. *)
Definition alloc (b : Bucket) : State Memory ptr :=
  s <- this ;;
  store (with_heap s (heap s ++ [b])) ;;
  ret (length (heap s)).

Definition get (id : string) : State Memory (option ptr) :=
  s <- this ;;
  ret (buckets (manager s) !! id).

Definition set (id : string) (bucket : ptr) : State Memory unit :=
  s <- this ;;
  store (with_buckets s (<[id := bucket]> (buckets (manager s)))).

Definition delete (id : string) : State Memory unit :=
  s <- this ;;
  store (with_buckets s (base.delete id (buckets (manager s)))).

Definition getOrCreate (id : string) : State Memory ptr :=
  found <- get id ;;
  match found with
  | Some bucket => ret bucket
  | None =>
      s <- this ;;
      bucket <- alloc (NewBucket (mLimit (manager s)) (mBurst (manager s))
                         (mRefill (manager s))) ;;
      set id bucket ;;
      ret bucket
  end.

(** A bucket method called through a pointer runs on the bucket at that
    place, in place. A pointer to no bucket ([nil]) makes the method
    panic: [None], the memory as it was. *)
Definition call {A : Type} (bucket : ptr) (op : State Bucket A) : State Memory (option A) :=
  s <- this ;;
  match heap s !! bucket with
  | Some b =>
      let (a, b') := op b in
      store (with_heap s (<[bucket := b']> (heap s))) ;;
      ret (Some a)
  | None => ret None
  end.

(** A manager method [m.Op(id, ...)] is [m.getOrCreate(id).Op(...)]. *)
Definition on_bucket {A : Type} (id : string) (op : State Bucket A) : State Memory (option A) :=
  bucket <- getOrCreate id ;;
  call bucket op.

Definition Get (id : string) : State Memory ptr := getOrCreate id.

Definition Set_ (id : string) (bucket : ptr) : State Memory unit := set id bucket.

Definition Delete (id : string) : State Memory unit := delete id.

Definition CanDrawAt (id : string) (t : time.Time) (n : Z) : State Memory (option bool) :=
  on_bucket id (CanDrawAt t n).

Definition DrawAt (id : string) (t : time.Time) (n : Z) : State Memory (option bool) :=
  on_bucket id (DrawAt t n).

Definition DrawMaxAt (id : string) (t : time.Time) (n : Z) : State Memory (option Z) :=
  on_bucket id (DrawMaxAt t n).

Definition ForceDrawAt (id : string) (t : time.Time) (n : Z) : State Memory (option Z) :=
  on_bucket id (ForceDrawAt t n).

Definition SetTokensAt (id : string) (t : time.Time) (v : Z) : State Memory (option unit) :=
  on_bucket id (SetTokensAt t v).

Definition RemainingAt (id : string) (t : time.Time) : State Memory (option Z) :=
  on_bucket id (RemainingAt t).

Definition TokensAt (id : string) (t : time.Time) : State Memory (option Z) :=
  on_bucket id (TokensAt t).

Definition NextRefillAt (id : string) (t : time.Time) : State Memory (option time.Time) :=
  on_bucket id (NextRefillAt t).

Definition ResetAt (id : string) (t : time.Time) : State Memory (option unit) :=
  on_bucket id (ResetAt t).

Definition IsResetAt (id : string) (t : time.Time) : State Memory (option bool) :=
  on_bucket id (IsResetAt t).

(** The loop of [Purge] over the entries in the order [range] yields
    them: [bucket.IsReset()] reconciles the bucket in place at the
    clock's reading, and the entry is deleted when the answer is true.
    The answer is false when a method panicked. *)
Fixpoint purge_loop (now : string -> time.Time) (entries : list (string * ptr)) : State Memory bool :=
  match entries with
  | [] => ret true
  | (id, bucket) :: rest =>
      answer <- call bucket (IsReset (now id)) ;;
      match answer with
      | Some is_reset =>
          (if is_reset : bool then delete id else ret tt) ;;
          purge_loop now rest
      | None => ret false
      end
  end.

(** [Purge]. [order] is the order in which [range] yields the entries of
    the map, which Go leaves open: a permutation of the entries. The
    counter [removed] is returned as it was declared. *)
Definition Purge (now : string -> time.Time) (order : list (string * ptr)) : State Memory (option Z) :=
  let removed := 0 in
  finished <- purge_loop now order ;;
  ret (if finished : bool then Some removed else None).

End Shared.

(** Every pointer of the registry is the place of a bucket. *)
Definition allocated (s : Shared.Memory) : Prop :=
  map_Forall (fun _ p => (p < length (Shared.heap s))%nat)
             (Shared.buckets (Shared.manager s)).

(** No bucket is held under two ids. *)
Definition unshared (s : Shared.Memory) : Prop :=
  forall (id1 id2 : string) (p : Shared.ptr),
    Shared.buckets (Shared.manager s) !! id1 = Some p ->
    Shared.buckets (Shared.manager s) !! id2 = Some p -> id1 = id2.

(** The bucket an id leads to. *)
Definition bucket_at (s : Shared.Memory) (id : string) : option Bucket :=
  match Shared.buckets (Shared.manager s) !! id with
  | Some p => Shared.heap s !! p
  | None => None
  end.

(** The registry of bucket states that a memory shows: each id with the
    bucket it leads to. *)
Definition view (s : Shared.Memory) : BucketManager :=
  {| mLimit := Shared.mLimit (Shared.manager s);
     mBurst := Shared.mBurst (Shared.manager s);
     mRefill := Shared.mRefill (Shared.manager s);
     buckets := omap (fun p => Shared.heap s !! p)
                     (Shared.buckets (Shared.manager s)) |}.


(** ** The reference algorithm of the specification

    Refill reconciliation as the specification words it, in five steps, as
    a pure function of the bucket and the query time. The integers are the
    bucket's [int64]s, so the sum and the products are [add64], [mul64]. *)
Definition reconcile (b : Bucket) (t : time.Time) : Bucket :=
  if tokens b =? Burst b then
    (* 1. saturated: advance lastUpdate to the query time and return *)
    with_lastUpdate b t
  else
    (* 2. the number of whole refill intervals elapsed *)
    let delta := intervalCount (lastUpdate b) t (Refill b) in
    (* 3. advance lastUpdate by delta * refillInterval *)
    let anchor := time.Add (lastUpdate b) (mul64 delta (Refill b)) in
    (* 4. add delta * rate tokens to the balance *)
    let balance := add64 (tokens b) (mul64 delta (Limit b)) in
    (* 5. clamp at burstCap and re-anchor at the query time *)
    if Burst b <=? balance then
      with_lastUpdate (with_tokens b (Burst b)) t
    else
      with_lastUpdate (with_tokens b balance) anchor.

(** ** Auxiliary definitions of the proofs *)

Abbreviation F := (S754_finite false).

(** The end of [binary_round_aux] on a rounded mantissa [mr] of 53 bits,
    or [2^53] after a carry. *)
Definition round_tail (mr e : Z) : spec_float :=
  let '(mrs'', e'') := shr_fexp prec emax mr e loc_Exact in
  match shr_m mrs'' with
  | Z0 => S754_zero false
  | Zpos m => if e'' <=? emax - prec then S754_finite false m e'' else S754_infinity false
  | _ => S754_nan
  end.

(** The bucket of the refill scenarios (5 tokens a second, 20 at most)
    with a given balance and anchor. *)
Definition scenario_bucket (tk : Z) (lu : time.Time) : Bucket :=
  {| Limit := 5; Burst := 20; Refill := time.Second;
     tokens := tk; lastUpdate := lu |}.

(** ** Callers, for the statements about sequences of calls *)

(** The caller's contract for a call at [t]: a positive [Refill], and [t]
    not before [lastUpdate] and less than [2^53] ns after it. *)
Definition in_contract (b : Bucket) (t : time.Time) : Prop :=
  0 < Refill b <= max_int64 /\ 0 <= t - lastUpdate b < 2 ^ 53.

(** The credit of the whole intervals between [lastUpdate] and [t] fits
    [int64], alone and added to the balance. *)
Definition credit_fits (b : Bucket) (t : time.Time) : Prop :=
  in_int64 ((t - lastUpdate b) / Refill b * Limit b)
  /\ in_int64 (tokens b + (t - lastUpdate b) / Refill b * Limit b).

(** One call of a caller on its bucket. *)
Inductive request : Type :=
  | Draw (n : Z)
  | DrawMax (n : Z)
  | CanDraw (n : Z)
  | Tokens.

(** [serve t r] makes the call [r] at [t] and answers the number of tokens
    the call handed out. *)
Definition serve (t : time.Time) (r : request) : State Bucket Z :=
  match r with
  | Draw n => ok <- DrawAt t n ;; ret (if ok : bool then n else 0)
  | DrawMax n => DrawMaxAt t n
  | CanDraw n => CanDrawAt t n ;; ret 0
  | Tokens => TokensAt t ;; ret 0
  end.

(** A caller making the calls of [reqs] in order; the answer is the total
    handed out. *)
Fixpoint serve_all (reqs : list (time.Time * request)) : State Bucket Z :=
  match reqs with
  | [] => ret 0
  | (t, r) :: rest =>
      granted <- serve t r ;;
      more <- serve_all rest ;;
      ret (granted + more)
  end.

(** The amount a call asks for. *)
Definition asked (r : request) : Z :=
  match r with
  | Draw n | DrawMax n | CanDraw n => n
  | Tokens => 0
  end.

(** Timestamps that do not descend, from [from] on, and amounts that are
    not negative. *)
Fixpoint well_timed (from : time.Time) (reqs : list (time.Time * request)) : Prop :=
  match reqs with
  | [] => True
  | (t, r) :: rest => from <= t /\ 0 <= asked r /\ well_timed t rest
  end.

(** The time of the last call ([from] when there is none). *)
Fixpoint last_time (from : time.Time) (reqs : list (time.Time * request)) : time.Time :=
  match reqs with
  | [] => from
  | (t, _) :: rest => last_time t rest
  end.

(** ** The registry and the rate, for the statements about them *)

(** The bucket a manager method acts on: the one stored under [id], or a
    new one with the manager's configuration. *)
Definition bucket_of (m : BucketManager) (id : string) : Bucket :=
  default (NewBucket (mLimit m) (mBurst m) (mRefill m)) (buckets m !! id).

(** What a sequence of calls keeps true of a bucket configured with
    [limit], [burst], [refill_] and first used at [t0], [g] being the
    tokens handed out so far: the balance stays between 0 and [burst], and
    the tokens handed out and still held are covered by [burst] and by
    [limit] tokens for every interval of [refill_] from [t0] to the
    anchor. *)
Definition rate_invariant (limit burst : Z) (refill_ : time.Duration)
    (t0 : time.Time) (g : Z) (b : Bucket) : Prop :=
  Limit b = limit /\ Burst b = burst /\ Refill b = refill_
  /\ 0 <= tokens b <= burst
  /\ t0 <= lastUpdate b
  /\ 0 <= g
  /\ refill_ * (g + tokens b) <= refill_ * burst + limit * (lastUpdate b - t0).

(** The bucket under [id], when there is one, has the manager's
    configuration, was last used before [Purge] visits it at [visit], and
    is used at [t] within the caller's contract. *)
Definition purge_safe (m : BucketManager) (id : string)
    (visit t : time.Time) : Prop :=
  match buckets m !! id with
  | Some b =>
      Limit b = mLimit m /\ Burst b = mBurst m /\ Refill b = mRefill m
      /\ 0 <= Limit b /\ in_int64 (tokens b)
      /\ lastUpdate b <= visit
      /\ in_contract b t /\ credit_fits b t
  | None => True
  end.

(** * Properties *)

(** ** [int64] arithmetic *)

Lemma wrap64_id (z : Z) : in_int64 z -> wrap64 z = z.
Proof.
  unfold in_int64, min_int64, max_int64, wrap64. intros Hz.
  rewrite Z.mod_small; lia.
Qed.

Lemma wrap64_in_int64 (z : Z) : in_int64 (wrap64 z).
Proof.
  unfold in_int64, min_int64, max_int64, wrap64.
  pose proof (Z.mod_pos_bound (z + 2 ^ 63) (2 ^ 64)). lia.
Qed.

Lemma wrap64_idem (z : Z) : wrap64 (wrap64 z) = wrap64 z.
Proof. apply wrap64_id, wrap64_in_int64. Qed.

Lemma add64_exact (a b : Z) : in_int64 (a + b) -> add64 a b = a + b.
Proof. apply wrap64_id. Qed.

Lemma sub64_exact (a b : Z) : in_int64 (a - b) -> sub64 a b = a - b.
Proof. apply wrap64_id. Qed.

Lemma mul64_exact (a b : Z) : in_int64 (a * b) -> mul64 a b = a * b.
Proof. apply wrap64_id. Qed.

Lemma min_is_Zmin (a b : Z) : min a b = Z.min a b.
Proof. unfold min. destruct (Z.ltb_spec a b); lia. Qed.

(** Closed range conditions, by evaluation. *)
Ltac concrete_ok :=
  unfold bucket_ok, in_int64; repeat split; vm_compute; discriminate.

(** ** [float64]: conversions and division on 53-bit mantissas

    What follows unfolds [SpecFloat] at precision 53: an integer below
    [2^53] converts exactly, a larger [int64] is rounded to 53 bits, and
    the truncated quotient of two such floats is the integer quotient as
    long as the dividend is below [2^53]. *)

Lemma digits2_pos_size (p : positive) : digits2_pos p = Pos.size p.
Proof. induction p as [p IH | p IH |]; cbn; [rewrite IH .. |]; reflexivity. Qed.

Lemma Zdigits2_log2 (p : positive) : Zdigits2 (Z.pos p) = Z.log2 (Z.pos p) + 1.
Proof.
  destruct p as [p | p |]; cbn [Zdigits2 digits2_pos Z.log2];
    rewrite ?digits2_pos_size; lia.
Qed.

Lemma Zdigits2_unique (p : positive) (n : Z) :
  2 ^ (n - 1) <= Z.pos p < 2 ^ n -> Zdigits2 (Z.pos p) = n.
Proof.
  intros H. rewrite Zdigits2_log2.
  assert (0 <= n - 1).
  { destruct (Z.le_gt_cases 0 (n - 1)) as [Hn | Hn]; [assumption |].
    rewrite (Z.pow_neg_r 2 (n - 1)) in H by lia.
    assert (n <= 0) by lia.
    destruct (Z.eq_dec n 0) as [-> | Hn0]; [cbn in H; lia |].
    rewrite (Z.pow_neg_r 2 n) in H by lia. lia. }
  assert (Hl : Z.log2 (Z.pos p) = n - 1).
  { apply Z.log2_unique; [lia |].
    replace (Z.succ (n - 1)) with n by lia. assumption. }
  lia.
Qed.

Lemma Zdigits2_bounds (p : positive) :
  2 ^ (Zdigits2 (Z.pos p) - 1) <= Z.pos p < 2 ^ Zdigits2 (Z.pos p).
Proof.
  rewrite Zdigits2_log2.
  replace (Z.log2 (Z.pos p) + 1 - 1) with (Z.log2 (Z.pos p)) by lia.
  pose proof (Z.log2_spec (Z.pos p)) as H.
  replace (Z.succ (Z.log2 (Z.pos p))) with (Z.log2 (Z.pos p) + 1) in H by lia.
  apply H. lia.
Qed.

Lemma Zdigits2_pos (p : positive) : 1 <= Zdigits2 (Z.pos p).
Proof. rewrite Zdigits2_log2. pose proof (Z.log2_nonneg (Z.pos p)). lia. Qed.

Lemma iter_xO_pow2 (p d : positive) :
  Z.pos (Pos.iter xO p d) = Z.pos p * 2 ^ Z.pos d.
Proof.
  induction d as [| d IH] using Pos.peano_ind.
  - cbn. lia.
  - rewrite Pos.iter_succ, Pos2Z.inj_xO, IH, Pos2Z.inj_succ, Z.pow_succ_r by lia.
    lia.
Qed.

(** shl_align to a smaller exponent *)
Lemma shl_align_spec (mx : positive) (ex ex' : Z) :
  ex' <= ex ->
  exists mz, shl_align mx ex ex' = (mz, ex') /\ Z.pos mz = Z.pos mx * 2 ^ (ex - ex').
Proof.
  intros Hle. unfold shl_align.
  destruct (ex' - ex) as [| d | d] eqn:Hd; try lia.
  - exists mx. assert (ex = ex') by lia. subst. rewrite Z.sub_diag. split; [reflexivity | lia].
  - exists (Pos.iter xO mx d). split; [reflexivity |].
    rewrite iter_xO_pow2. f_equal. f_equal; lia.
Qed.

Lemma fexp_normal (e : Z) : -1021 <= e -> fexp prec emax e = e - 53.
Proof. unfold fexp, emin, prec, emax. lia. Qed.

Lemma loc_of_shr_record_of_loc (m : Z) (l : location) :
  loc_of_shr_record (shr_record_of_loc m l) = l.
Proof. destruct l as [| []]; reflexivity. Qed.

Lemma shr_m_of_loc (m : Z) (l : location) : shr_m (shr_record_of_loc m l) = m.
Proof. destruct l as [| []]; reflexivity. Qed.

Lemma shr_fexp_53 (p : positive) (e : Z) (l : location) :
  Zdigits2 (Z.pos p) = 53 -> -1074 <= e ->
  shr_fexp prec emax (Z.pos p) e l = (shr_record_of_loc (Z.pos p) l, e).
Proof.
  intros Hd He. unfold shr_fexp. rewrite Hd, fexp_normal by lia.
  replace (53 + e - 53 - e) with 0 by lia. reflexivity.
Qed.

Lemma shr_fexp_54 (p : positive) (e : Z) (l : location) :
  Zdigits2 (Z.pos p) = 54 -> -1074 <= e ->
  shr_fexp prec emax (Z.pos p) e l = (shr_1 (shr_record_of_loc (Z.pos p) l), e + 1).
Proof.
  intros Hd He. unfold shr_fexp. rewrite Hd, fexp_normal by lia.
  replace (54 + e - 53 - e) with 1 by lia. reflexivity.
Qed.

Lemma shr_m_shr_1 (mrs : shr_record) :
  0 <= shr_m mrs -> shr_m (shr_1 mrs) = shr_m mrs / 2.
Proof.
  destruct mrs as [m r s]. cbn [shr_m]. intros Hm.
  destruct m as [| [p | p |] | p]; cbn [shr_1 shr_m];
    try reflexivity; try lia.
  - apply (Z.div_unique _ _ _ 1); lia.
  - apply (Z.div_unique _ _ _ 0); lia.
Qed.

Lemma round_tail_spec (mr e : Z) :
  2 ^ 52 <= mr <= 2 ^ 53 -> -1074 <= e <= 970 ->
  exists mf ef,
    round_tail mr e = F mf ef
    /\ Zdigits2 (Z.pos mf) = 53
    /\ e <= ef <= e + 1
    /\ Z.pos mf * 2 ^ (ef - e) = mr.
Proof.
  intros Hmr He. unfold round_tail.
  destruct mr as [| p | p]; try lia.
  destruct (Z.eq_dec (Z.pos p) (2 ^ 53)) as [Heq | Hne].
  - rewrite shr_fexp_54; [| apply Zdigits2_unique; rewrite Heq; lia | lia].
    injection Heq as ->. cbn [shr_record_of_loc shr_1 shr_m].
    replace (e + 1 <=? emax - prec) with true
      by (symmetry; apply Z.leb_le; unfold emax, prec; lia).
    eexists _, _. split; [reflexivity |].
    split; [reflexivity |]. split; [lia |].
    replace (e + 1 - e) with 1 by lia. reflexivity.
  - assert (Hd : Zdigits2 (Z.pos p) = 53) by (apply Zdigits2_unique; lia).
    rewrite shr_fexp_53 by (assumption || lia).
    cbn [shr_record_of_loc shr_m].
    replace (e <=? emax - prec) with true
      by (symmetry; apply Z.leb_le; unfold emax, prec; lia).
    exists p, e. split; [reflexivity |].
    split; [assumption |]. split; [lia |].
    rewrite Z.sub_diag. lia.
Qed.

Lemma round_nearest_even_cases (m : Z) (l : location) :
  round_nearest_even m l = m
  \/ (round_nearest_even m l = m + 1
      /\ (l = loc_Inexact Gt \/ (l = loc_Inexact Eq /\ Z.even m = false))).
Proof.
  destruct l as [| []]; cbn [round_nearest_even]; auto.
  destruct (Z.even m) eqn:E; auto.
Qed.

Lemma binary_round_aux_53 (p : positive) (e : Z) (l : location) :
  Zdigits2 (Z.pos p) = 53 -> -1074 <= e ->
  binary_round_aux prec emax false (Z.pos p) e l
  = round_tail (round_nearest_even (Z.pos p) l) e.
Proof.
  intros Hd He. unfold binary_round_aux, round_tail.
  rewrite shr_fexp_53 by assumption.
  rewrite loc_of_shr_record_of_loc, shr_m_of_loc. reflexivity.
Qed.

Lemma binary_round_aux_54 (p : positive) (e : Z) (l : location) :
  Zdigits2 (Z.pos p) = 54 -> -1074 <= e ->
  binary_round_aux prec emax false (Z.pos p) e l
  = let mrs := shr_1 (shr_record_of_loc (Z.pos p) l) in
    round_tail (round_nearest_even (shr_m mrs) (loc_of_shr_record mrs)) (e + 1).
Proof.
  intros Hd He. unfold binary_round_aux, round_tail.
  rewrite shr_fexp_54 by assumption. reflexivity.
Qed.

(** [iter_pos shr_1]: the mantissa is halved [k] times. *)
Lemma shr_m_iter_pos (k : positive) (mrs : shr_record) :
  0 <= shr_m mrs -> shr_m (iter_pos shr_1 k mrs) = shr_m mrs / 2 ^ Z.pos k.
Proof.
  revert mrs.
  induction k as [k IH | k IH |]; intros mrs Hm; cbn [iter_pos].
  - assert (H1 : 0 <= shr_m (shr_1 mrs))
      by (rewrite shr_m_shr_1 by assumption; apply Z.div_pos; lia).
    assert (H2 : 0 <= shr_m (iter_pos shr_1 k (shr_1 mrs)))
      by (rewrite IH by assumption; apply Z.div_pos; lia).
    rewrite IH, IH, shr_m_shr_1 by assumption.
    rewrite !Z.div_div by lia. f_equal.
    rewrite (Pos2Z.inj_xI k).
    replace (2 * Z.pos k + 1) with (1 + Z.pos k + Z.pos k) by lia.
    rewrite !Z.pow_add_r by lia. change (2 ^ 1) with 2. lia.
  - assert (H2 : 0 <= shr_m (iter_pos shr_1 k mrs))
      by (rewrite IH by assumption; apply Z.div_pos; lia).
    rewrite IH, IH by assumption.
    rewrite Z.div_div by lia. f_equal.
    rewrite (Pos2Z.inj_xO k). replace (2 * Z.pos k) with (Z.pos k + Z.pos k) by lia.
    rewrite Z.pow_add_r by lia. reflexivity.
  - rewrite shr_m_shr_1 by assumption. reflexivity.
Qed.

Lemma binary_round_aux_tail (mx ex : Z) (lx : location) :
  binary_round_aux prec emax false mx ex lx
  = let '(mrs', e') := shr_fexp prec emax mx ex lx in
    round_tail (round_nearest_even (shr_m mrs') (loc_of_shr_record mrs')) e'.
Proof. unfold binary_round_aux, round_tail. destruct (shr_fexp _ _ _ _ _). reflexivity. Qed.

Lemma binary_round_aux_sign (mx ex : Z) (lx : location) :
  binary_round_aux prec emax true mx ex lx
  = SFopp (binary_round_aux prec emax false mx ex lx).
Proof.
  unfold binary_round_aux.
  destruct (shr_fexp prec emax mx ex lx) as [mrs' e'].
  destruct (shr_fexp prec emax _ e' loc_Exact) as [mrs'' e''].
  destruct (shr_m mrs''); try reflexivity.
  destruct (e'' <=? emax - prec); reflexivity.
Qed.

Lemma Abs_float64_of_int64_opp (z : Z) :
  math.Abs (float64_of_int64 (- z)) = math.Abs (float64_of_int64 z).
Proof.
  unfold math.Abs, float64_of_int64, binary_normalize, binary_round.
  destruct z as [| p | p]; try reflexivity;
    [change (- Z.pos p) with (Z.neg p) | change (- Z.neg p) with (Z.pos p)];
    cbv beta iota;
    destruct (shl_align _ _ _) as [mz ez];
    rewrite binary_round_aux_sign;
    destruct (binary_round_aux prec emax false (Z.pos mz) ez loc_Exact);
    reflexivity.
Qed.

Lemma pow2_le_mono (a b : Z) : 0 <= a <= b -> 2 ^ a <= 2 ^ b.
Proof. intros H. apply Z.pow_le_mono_r; lia. Qed.

Lemma pow2_pos (a : Z) : 0 <= a -> 0 < 2 ^ a.
Proof. intros H. apply Z.pow_pos_nonneg; lia. Qed.

Lemma Zdigits2_le_of_lt (p : positive) (n : Z) :
  0 <= n -> Z.pos p < 2 ^ n -> Zdigits2 (Z.pos p) <= n.
Proof.
  intros Hn Hp. pose proof (Zdigits2_bounds p) as [Hlo _].
  pose proof (Zdigits2_pos p).
  destruct (Z.le_gt_cases (Zdigits2 (Z.pos p)) n) as [H1 | H1]; [assumption |].
  pose proof (pow2_le_mono n (Zdigits2 (Z.pos p) - 1)). lia.
Qed.

Lemma Zdigits2_gt_of_le (p : positive) (n : Z) :
  0 <= n -> 2 ^ n <= Z.pos p -> n < Zdigits2 (Z.pos p).
Proof.
  intros Hn Hp. pose proof (Zdigits2_bounds p) as [_ Hhi].
  pose proof (Zdigits2_pos p).
  destruct (Z.le_gt_cases (Zdigits2 (Z.pos p)) n) as [H1 | H1]; [| assumption].
  pose proof (pow2_le_mono (Zdigits2 (Z.pos p)) n). lia.
Qed.

(** An integer below [2^53] converts exactly: the mantissa is the integer
    shifted up to 53 bits. *)
Lemma float64_of_small (p : positive) :
  Z.pos p < 2 ^ 53 ->
  exists m e,
    float64_of_int64 (Z.pos p) = F m e
    /\ Zdigits2 (Z.pos m) = 53
    /\ -52 <= e <= 0
    /\ Z.pos m = Z.pos p * 2 ^ (- e).
Proof.
  intros Hp.
  pose proof (Zdigits2_pos p) as Hn1.
  pose proof (Zdigits2_le_of_lt p 53 ltac:(lia) Hp) as Hn2.
  pose proof (Zdigits2_bounds p) as [Hlo Hhi].
  set (n := Zdigits2 (Z.pos p)) in *.
  unfold float64_of_int64, binary_normalize, binary_round.
  change (Z.pos (digits2_pos p)) with n.
  rewrite fexp_normal by lia.
  destruct (shl_align_spec p 0 (n + 0 - 53) ltac:(lia)) as (mz & Hs & Hmz).
  rewrite Hs.
  replace (0 - (n + 0 - 53)) with (53 - n) in Hmz by lia.
  assert (Hpow : 2 ^ (n - 1) * 2 ^ (53 - n) = 2 ^ 52).
  { rewrite <- Z.pow_add_r by lia. f_equal; lia. }
  assert (Hpow' : 2 ^ n * 2 ^ (53 - n) = 2 ^ 53).
  { rewrite <- Z.pow_add_r by lia. f_equal; lia. }
  pose proof (pow2_pos (53 - n) ltac:(lia)) as Hpos.
  assert (Hdz : Zdigits2 (Z.pos mz) = 53).
  { apply Zdigits2_unique. rewrite Hmz. change (53 - 1) with 52. nia. }
  rewrite binary_round_aux_53 by (assumption || lia).
  cbn [round_nearest_even].
  destruct (round_tail_spec (Z.pos mz) (n + 0 - 53)) as (mf & ef & Hr & Hdf & Hef & Hv).
  { pose proof (Zdigits2_bounds mz) as Hb. rewrite Hdz in Hb.
    change (53 - 1) with 52 in Hb. lia. }
  { lia. }
  rewrite Hr.
  assert (ef = n + 0 - 53).
  { destruct (Z.eq_dec ef (n + 0 - 53)) as [| Hne]; [assumption |].
    assert (ef - (n + 0 - 53) = 1) as He1 by lia.
    rewrite He1 in Hv. change (2 ^ 1) with 2 in Hv.
    pose proof (Zdigits2_bounds mf) as Hb. rewrite Hdf in Hb.
    pose proof (Zdigits2_bounds mz) as Hb'. rewrite Hdz in Hb'.
    change (53 - 1) with 52 in *. lia. }
  subst ef. rewrite Z.sub_diag, Z.mul_1_r in Hv.
  exists mf, (n + 0 - 53). split; [reflexivity |].
  split; [assumption |]. split; [lia |].
  rewrite Hv, Hmz. f_equal. f_equal; lia.
Qed.

(** An integer from [2^53] up is rounded to a 53-bit mantissa with a
    positive exponent. *)
Lemma float64_of_large (p : positive) :
  2 ^ 53 <= Z.pos p < 2 ^ 63 ->
  exists m e,
    float64_of_int64 (Z.pos p) = F m e
    /\ Zdigits2 (Z.pos m) = 53
    /\ 1 <= e <= 11.
Proof.
  intros [Hlo53 Hhi63].
  pose proof (Zdigits2_gt_of_le p 53 ltac:(lia) Hlo53) as Hn1.
  pose proof (Zdigits2_le_of_lt p 63 ltac:(lia) Hhi63) as Hn2.
  pose proof (Zdigits2_bounds p) as [Hlo Hhi].
  set (n := Zdigits2 (Z.pos p)) in *.
  unfold float64_of_int64, binary_normalize, binary_round.
  change (Z.pos (digits2_pos p)) with n.
  rewrite fexp_normal by lia.
  assert (Hs : shl_align p 0 (n + 0 - 53) = (p, 0)).
  { unfold shl_align. destruct (n + 0 - 53 - 0) eqn:E; try reflexivity; lia. }
  rewrite Hs, binary_round_aux_tail.
  unfold shr_fexp. fold n. rewrite fexp_normal by lia.
  destruct (n + 0 - 53 - 0) as [| k | k] eqn:Ek; try lia.
  cbn [shr shr_record_of_loc].
  set (mrs := iter_pos shr_1 k _).
  assert (Hm : shr_m mrs = Z.pos p / 2 ^ Z.pos k).
  { subst mrs. rewrite shr_m_iter_pos; cbn [shr_m]; [reflexivity | lia]. }
  assert (Hk : n = 53 + Z.pos k) by lia.
  assert (Hb : 2 ^ 52 <= shr_m mrs < 2 ^ 53).
  { rewrite Hm. pose proof (pow2_pos (Z.pos k) ltac:(lia)) as Hpos.
    rewrite Hk in Hlo, Hhi.
    replace (53 + Z.pos k - 1) with (52 + Z.pos k) in Hlo by lia.
    rewrite Z.pow_add_r in Hlo, Hhi by lia.
    split.
    - apply Z.div_le_lower_bound; lia.
    - apply Z.div_lt_upper_bound; lia. }
  destruct (round_tail_spec
              (round_nearest_even (shr_m mrs) (loc_of_shr_record mrs))
              (0 + Z.pos k)) as (mf & ef & Hr & Hdf & Hef & Hv).
  { destruct (round_nearest_even_cases (shr_m mrs) (loc_of_shr_record mrs))
      as [-> | [-> _]]; lia. }
  { lia. }
  rewrite Hr. exists mf, ef. split; [reflexivity |]. split; [assumption |]. lia.
Qed.

(** Truncating a correctly rounded quotient. [N / D] is the quotient at
    the precision of the result, [P] the weight of its last integer bit:
    rounding up never reaches the next integer, because [N] and [Rv * T]
    are multiples of [T], which [D / 2] stays below. *)
Lemma trunc_rounded_quotient (N D P Rv T dd mr : Z) :
  0 < D -> 0 < P -> 0 < Rv -> 0 < T -> 0 <= dd ->
  N = dd * T -> D * P = Rv * T -> D < 2 * T ->
  (mr = N / D \/ (mr = N / D + 1 /\ D <= 2 * (N mod D))) ->
  mr / P = dd / Rv.
Proof.
  intros HD HP HR HT Hdd HN HDP HDT Hmr.
  assert (Hq : N / D / P = dd / Rv).
  { rewrite Z.div_div by lia. rewrite HDP, HN.
    apply Z.div_mul_cancel_r; lia. }
  destruct Hmr as [-> | [-> Hup]]; [assumption |].
  rewrite <- Hq.
  pose proof (Z.div_mod N D ltac:(lia)) as HND.
  pose proof (Z.mod_pos_bound N D HD) as Hr1.
  set (Q1 := N / D) in *. set (r1 := N mod D) in *.
  pose proof (Z.div_mod Q1 P ltac:(lia)) as HQP.
  pose proof (Z.mod_pos_bound Q1 P HP) as Hr2.
  set (q0 := Q1 / P) in *. set (rr := Q1 mod P) in *.
  destruct (Z.lt_ge_cases (rr + 1) P) as [Hlt | Hge].
  - symmetry. apply (Z.div_unique _ _ _ (rr + 1)); lia.
  - exfalso.
    assert (Hrr : rr = P - 1) by lia.
    assert (HX : ((q0 + 1) * Rv - dd) * T = D - r1).
    { replace (((q0 + 1) * Rv - dd) * T) with ((q0 + 1) * (Rv * T) - dd * T) by ring.
      rewrite <- HDP, <- HN, HND.
      replace (Q1) with (P * q0 + (P - 1)) by lia. ring. }
    assert (Hb : 0 < D - r1 < T) by lia.
    rewrite <- HX in Hb. clear - Hb HT.
    destruct (Z.le_gt_cases ((q0 + 1) * Rv - dd) 0); nia.
Qed.

Lemma SFdiv_core_normal (m1 m2 : positive) (e1 e2 : Z) :
  Zdigits2 (Z.pos m1) = 53 -> Zdigits2 (Z.pos m2) = 53 ->
  -1000 <= e1 - e2 ->
  SFdiv_core_binary prec emax (Z.pos m1) e1 (Z.pos m2) e2
  = ((Z.pos m1 * 2 ^ 53) / Z.pos m2, e1 - e2 - 53,
     new_location (Z.pos m2) ((Z.pos m1 * 2 ^ 53) mod Z.pos m2)).
Proof.
  intros H1 H2 He. unfold SFdiv_core_binary. rewrite H1, H2.
  rewrite fexp_normal by lia.
  replace (Z.min (53 + e1 - (53 + e2) - 53) (e1 - e2)) with (e1 - e2 - 53) by lia.
  replace (e1 - e2 - (e1 - e2 - 53)) with 53 by lia.
  cbv beta iota zeta.
  rewrite Z.shiftl_mul_pow2 by lia.
  unfold Z.div, Z.modulo.
  destruct (Z.div_eucl (Z.pos m1 * 2 ^ 53) (Z.pos m2)) as [q r]. reflexivity.
Qed.

Lemma new_location_up (m r : Z) (c : comparison) :
  0 < m -> 0 <= r ->
  new_location m r = loc_Inexact c -> c <> Lt -> m <= 2 * r.
Proof.
  intros Hm Hr. unfold new_location, new_location_even, new_location_odd.
  destruct (Z.even m); destruct (r =? 0); try discriminate.
  - intros [= <-] Hc. destruct (Z.compare_spec (2 * r) m); try lia. contradiction.
  - destruct (Z.compare_spec (2 * r + 1) m); intros [= <-] Hc; try lia; contradiction.
Qed.

Lemma round_tail_trunc (mr e : Z) :
  2 ^ 52 <= mr <= 2 ^ 53 -> -1074 <= e <= 0 ->
  float64_trunc (round_tail mr e) = Some (mr / 2 ^ (- e)).
Proof.
  intros Hmr He.
  destruct (round_tail_spec mr e Hmr ltac:(lia)) as (mf & ef & Hr & Hdf & Hef & Hv).
  rewrite Hr. cbn [float64_trunc cond_Zopp]. f_equal.
  destruct (Z.eq_dec ef e) as [-> | Hne].
  - rewrite Z.sub_diag, Z.mul_1_r in Hv. rewrite <- Hv.
    rewrite <- (Z.opp_involutive e) at 1.
    rewrite Z.shiftl_opp_r, Z.shiftr_div_pow2 by lia. reflexivity.
  - assert (ef = e + 1) by lia. subst ef.
    replace (e + 1 - e) with 1 in Hv by lia. change (2 ^ 1) with 2 in Hv.
    destruct (Z.eq_dec e 0) as [-> | He0].
    + change (- 0) with 0. rewrite Z.pow_0_r, Z.div_1_r.
      rewrite Z.shiftl_mul_pow2 by lia. exact Hv.
    + rewrite <- (Z.opp_involutive (e + 1)).
      rewrite Z.shiftl_opp_r, Z.shiftr_div_pow2 by lia.
      rewrite <- Hv.
      replace (- e) with (1 + - (e + 1)) by lia.
      rewrite Z.pow_add_r by lia. change (2 ^ 1) with 2.
      rewrite (Z.mul_comm (Z.pos mf) 2).
      rewrite Z.div_mul_cancel_l; [reflexivity | | lia].
      pose proof (pow2_pos (- (e + 1)) ltac:(lia)). lia.
Qed.

Lemma shr_1_round_bit (q : positive) (l : location) (c : comparison) :
  loc_of_shr_record (shr_1 (shr_record_of_loc (Z.pos q) l)) = loc_Inexact c ->
  c <> Lt -> Z.odd (Z.pos q) = true.
Proof.
  destruct q as [q | q |], l as [| []]; cbn; intros [= <-] Hc;
    try reflexivity; contradiction.
Qed.

(** The quotient of two floats with 53-bit mantissas, truncated. *)
Lemma fdiv_trunc (m1 m2 : positive) (e1 e2 dd Rv : Z) :
  Zdigits2 (Z.pos m1) = 53 -> Zdigits2 (Z.pos m2) = 53 ->
  -52 <= e1 <= 0 -> -52 <= e2 <= 11 ->
  0 <= dd -> 0 < Rv ->
  Z.pos m1 = dd * 2 ^ (- e1) ->
  Rv * 2 ^ 52 = Z.pos m2 * 2 ^ (e2 + 52) ->
  float64_trunc (fdiv (F m1 e1) (F m2 e2)) = Some (dd / Rv).
Proof.
  intros Hd1 Hd2 He1 He2 Hdd HRv Hm1 Hm2.
  pose proof (Zdigits2_bounds m1) as Hb1. rewrite Hd1 in Hb1.
  pose proof (Zdigits2_bounds m2) as Hb2. rewrite Hd2 in Hb2.
  change (53 - 1) with 52 in *.
  unfold fdiv, SFdiv. rewrite SFdiv_core_normal by (assumption || lia).
  cbn [xorb].
  set (N := Z.pos m1 * 2 ^ 53).
  pose proof (Z.div_mod N (Z.pos m2) ltac:(lia)) as HNq.
  pose proof (Z.mod_pos_bound N (Z.pos m2) ltac:(lia)) as Hr.
  set (q := N / Z.pos m2) in *. set (r := N mod Z.pos m2) in *.
  assert (Hq : 2 ^ 52 <= q < 2 ^ 54).
  { subst q N. split.
    - apply Z.div_le_lower_bound; lia.
    - apply Z.div_lt_upper_bound; lia. }
  (* the powers of two in play *)
  set (A := 2 ^ (- e1)) in *.
  set (B := 2 ^ (e2 + 52)) in *.
  assert (HA : 0 < A) by (apply pow2_pos; lia).
  assert (HB : 0 < B) by (apply pow2_pos; lia).
  assert (HT : 2 ^ (53 - e1) = 2 ^ 53 * A).
  { subst A. rewrite <- Z.pow_add_r by lia. f_equal; lia. }
  assert (HP0 : 2 ^ (- (e1 - e2 - 53)) = 2 * A * B).
  { subst A B. change 2 with (2 ^ 1) at 2.
    rewrite <- !Z.pow_add_r by lia. f_equal; lia. }
  assert (HP1 : 2 ^ (- (e1 - e2 - 53 + 1)) = A * B).
  { subst A B. rewrite <- !Z.pow_add_r by lia. f_equal; lia. }
  destruct q as [| qp | qp] eqn:Eq; try lia.
  destruct (Z.lt_ge_cases (Z.pos qp) (2 ^ 53)) as [Hlt | Hge].
  - (* a 53-bit quotient: no shift before rounding *)
    rewrite binary_round_aux_53 by (try (apply Zdigits2_unique); lia).
    set (l := new_location (Z.pos m2) r).
    assert (Hmr : round_nearest_even (Z.pos qp) l = Z.pos qp
                  \/ (round_nearest_even (Z.pos qp) l = Z.pos qp + 1
                      /\ Z.pos m2 <= 2 * r)).
    { destruct (round_nearest_even_cases (Z.pos qp) l) as [H | [H Hl]]; [auto |].
      right. split; [assumption |].
      destruct Hl as [Hl | [Hl _]];
        apply (new_location_up (Z.pos m2) r _ ltac:(lia) ltac:(lia) Hl); discriminate. }
    assert (Hmrb : 2 ^ 52 <= round_nearest_even (Z.pos qp) l <= 2 ^ 53)
      by (destruct Hmr as [H | [H _]]; rewrite H; lia).
    rewrite (round_tail_trunc _ _ Hmrb) by lia.
    f_equal. rewrite HP0.
    apply (trunc_rounded_quotient N (Z.pos m2) (2 * A * B) Rv (2 ^ 53 * A) dd);
      [lia | nia | lia | lia | lia | | | lia |].
    + subst N. rewrite Hm1. ring.
    + replace (Z.pos m2 * (2 * A * B)) with (2 * A * (Z.pos m2 * B)) by ring.
      rewrite <- Hm2. ring.
    + fold q r. rewrite Eq.
      destruct Hmr as [-> | [-> Hup]]; auto.
  - (* a 54-bit quotient: one bit is shifted out before rounding *)
    rewrite binary_round_aux_54 by (try (apply Zdigits2_unique); lia).
    cbv zeta.
    set (l := new_location (Z.pos m2) r).
    set (mrs := shr_1 (shr_record_of_loc (Z.pos qp) l)).
    assert (Hm : shr_m mrs = Z.pos qp / 2).
    { subst mrs. rewrite shr_m_shr_1; rewrite shr_m_of_loc; [reflexivity | lia]. }
    assert (Hhalf : 2 ^ 52 <= Z.pos qp / 2 < 2 ^ 53).
    { split; [apply Z.div_le_lower_bound | apply Z.div_lt_upper_bound]; lia. }
    assert (Hmr : round_nearest_even (shr_m mrs) (loc_of_shr_record mrs) = Z.pos qp / 2
                  \/ (round_nearest_even (shr_m mrs) (loc_of_shr_record mrs) = Z.pos qp / 2 + 1
                      /\ Z.odd (Z.pos qp) = true)).
    { rewrite <- Hm.
      destruct (round_nearest_even_cases (shr_m mrs) (loc_of_shr_record mrs))
        as [H | [H Hl]]; [auto |].
      right. split; [assumption |].
      destruct Hl as [Hl | [Hl _]];
        apply (shr_1_round_bit qp l _ Hl); discriminate. }
    assert (Hmrb : 2 ^ 52 <= round_nearest_even (shr_m mrs) (loc_of_shr_record mrs)
                   <= 2 ^ 53)
      by (destruct Hmr as [H | [H _]]; rewrite H; lia).
    rewrite (round_tail_trunc _ _ Hmrb) by lia.
    f_equal. rewrite HP1.
    apply (trunc_rounded_quotient N (Z.pos m2 * 2) (A * B) Rv (2 ^ 53 * A) dd);
      [lia | nia | lia | lia | lia | | | lia |].
    + subst N. rewrite Hm1. ring.
    + replace (Z.pos m2 * 2 * (A * B)) with (2 * A * (Z.pos m2 * B)) by ring.
      rewrite <- Hm2. ring.
    + assert (HND : N / (Z.pos m2 * 2) = Z.pos qp / 2).
      { rewrite <- Z.div_div by lia. fold q. rewrite Eq. reflexivity. }
      rewrite HND.
      destruct Hmr as [-> | [-> Hodd]]; [auto |].
      right. split; [reflexivity |].
      pose proof (Z.div_mod (Z.pos qp) 2 ltac:(lia)) as Hq2.
      rewrite <- Z.bit0_mod, Z.bit0_odd, Hodd in Hq2. cbn [Z.b2z] in Hq2.
      assert (Hmod : N mod (Z.pos m2 * 2) = Z.pos m2 + r).
      { symmetry. apply (Z.mod_unique_pos _ _ (Z.pos qp / 2)); [lia |].
        rewrite HNq. rewrite Hq2 at 1. ring. }
      rewrite Hmod. lia.
Qed.

(** The float of a positive [int64] [R], with the integer [Rv] it stands
    for: [R] itself below [2^53], a rounded value of at least [2^53]
    otherwise. *)
Lemma float64_of_positive (R : Z) :
  0 < R <= max_int64 ->
  exists m e Rv,
    float64_of_int64 R = F m e
    /\ Zdigits2 (Z.pos m) = 53
    /\ -52 <= e <= 11
    /\ 0 < Rv
    /\ Rv * 2 ^ 52 = Z.pos m * 2 ^ (e + 52)
    /\ (R < 2 ^ 53 -> Rv = R)
    /\ (2 ^ 53 <= R -> 2 ^ 53 <= Rv).
Proof.
  intros [HR0 HR1]. unfold max_int64 in HR1.
  destruct R as [| p | p]; try lia.
  destruct (Z.lt_ge_cases (Z.pos p) (2 ^ 53)) as [Hlt | Hge].
  - destruct (float64_of_small p Hlt) as (m & e & Hf & Hd & He & Hm).
    exists m, e, (Z.pos p).
    split; [assumption |]. split; [assumption |]. split; [lia |].
    split; [lia |]. split; [| split; [reflexivity | lia]].
    rewrite Hm. rewrite <- Z.mul_assoc, <- Z.pow_add_r by lia.
    f_equal; f_equal; lia.
  - destruct (float64_of_large p ltac:(lia)) as (m & e & Hf & Hd & He).
    pose proof (Zdigits2_bounds m) as Hb. rewrite Hd in Hb.
    change (53 - 1) with 52 in Hb.
    pose proof (pow2_le_mono 1 e ltac:(lia)) as Hp. change (2 ^ 1) with 2 in Hp.
    exists m, e, (Z.pos m * 2 ^ e).
    split; [assumption |]. split; [assumption |]. split; [lia |].
    split; [nia |]. split; [| split; [lia | intros _; nia]].
    rewrite <- Z.mul_assoc, <- Z.pow_add_r by lia. reflexivity.
Qed.

(** ** [intervalCount] and [nextAfter] *)

(** The checks of [TestIntervalUtils], at a present-day origin (63.9e9
    seconds after the zero [time.Time]). *)
Example intervalCount_test_exact :
  let origin := 63900000000 * time.Second in
  intervalCount origin (origin + 3 * time.Second) time.Second = 3
  /\ intervalCount origin (origin + 3 * time.Second + time.Second / 2) time.Second = 3.
Proof. vm_compute. split; reflexivity. Qed.

Example nextAfter_test :
  let origin := 63900000000 * time.Second in
  nextAfter origin (origin + time.Second + time.Second / 2) time.Second = origin + 2 * time.Second
  /\ nextAfter origin (origin + 2 * time.Second) time.Second = origin + 3 * time.Second.
Proof. vm_compute. split; reflexivity. Qed.

Lemma Sub_exact (t u : time.Time) : in_int64 (t - u) -> time.Sub t u = t - u.
Proof.
  unfold in_int64, time.Sub, time.minDuration, time.maxDuration. intros H.
  destruct (Z.ltb_spec (t - u) min_int64); [lia |].
  destruct (Z.ltb_spec max_int64 (t - u)); [lia | reflexivity].
Qed.

(** Within [2^53] nanoseconds (about 104 days) either way, and for every
    positive interval, [intervalCount] is the exact quotient. *)
Lemma intervalCount_exact (start end_ : time.Time) (interval : time.Duration) :
  - 2 ^ 53 < end_ - start < 2 ^ 53 ->
  0 < interval <= max_int64 ->
  intervalCount start end_ interval = Z.abs (end_ - start) / interval.
Proof.
  intros Hd Hi. unfold intervalCount.
  rewrite Sub_exact by (unfold in_int64, min_int64, max_int64; lia).
  assert (Habs : math.Abs (float64_of_int64 (end_ - start))
                 = math.Abs (float64_of_int64 (Z.abs (end_ - start)))).
  { destruct (Z.abs_spec (end_ - start)) as [[_ ->] | [_ ->]];
      [reflexivity | symmetry; apply Abs_float64_of_int64_opp]. }
  rewrite Habs.
  assert (Ha : 0 <= Z.abs (end_ - start) < 2 ^ 53) by lia.
  set (a := Z.abs (end_ - start)) in *.
  destruct (float64_of_positive interval Hi)
    as (m2 & e2 & Rv & Hf2 & Hd2 & He2 & HRv & Hv2 & Hsmall & Hlarge).
  rewrite Hf2.
  destruct a as [| p | p] eqn:Ea; try lia.
  - reflexivity.
  - destruct (float64_of_small p ltac:(lia)) as (m1 & e1 & Hf1 & Hd1 & He1 & Hm1).
    rewrite Hf1. cbn [math.Abs SFabs].
    unfold int64_of_float64.
    rewrite (fdiv_trunc m1 m2 e1 e2 (Z.pos p) Rv) by (assumption || lia).
    assert (Hq : 0 <= Z.pos p / Rv <= Z.pos p).
    { split; [apply Z.div_pos; lia |].
      apply Z.div_le_upper_bound; [lia | nia]. }
    replace ((min_int64 <=? Z.pos p / Rv) && (Z.pos p / Rv <=? max_int64)) with true.
    2: { symmetry. apply andb_true_intro.
         split; apply Z.leb_le; unfold min_int64, max_int64; lia. }
    destruct (Z.lt_ge_cases interval (2 ^ 53)) as [Hlt | Hge].
    + rewrite (Hsmall Hlt). reflexivity.
    + rewrite !Z.div_small by (specialize (Hlarge Hge); lia). reflexivity.
Qed.

(** Within [2^53] ns either way [intervalCount] is the truncated quotient
    of the distance by the interval, whole intervals only, the same for
    either order of the two instants. *)
Theorem intervalCount_exact_within_104_days
    (start end_ : time.Time) (interval : time.Duration) :
  - 2 ^ 53 < end_ - start < 2 ^ 53 ->
  0 < interval <= max_int64 ->
  intervalCount start end_ interval = Z.abs (end_ - start) / interval
  /\ intervalCount end_ start interval = intervalCount start end_ interval
  /\ interval * intervalCount start end_ interval <= Z.abs (end_ - start)
     < interval * (intervalCount start end_ interval + 1).
Proof.
  intros Hd Hi.
  rewrite (intervalCount_exact start end_) by assumption.
  rewrite (intervalCount_exact end_ start) by lia.
  split; [reflexivity |]. split; [f_equal; lia |].
  pose proof (Z.div_mod (Z.abs (end_ - start)) interval ltac:(lia)).
  pose proof (Z.mod_pos_bound (Z.abs (end_ - start)) interval ltac:(lia)).
  lia.
Qed.

Lemma intervalCount_exact_within_104_days_witness :
  let start := 63900000000 * time.Second in
  let end_ := start + 3500000000 in
  intervalCount start end_ time.Second = Z.abs (end_ - start) / time.Second
  /\ intervalCount end_ start time.Second = intervalCount start end_ time.Second
  /\ time.Second * intervalCount start end_ time.Second <= Z.abs (end_ - start)
     < time.Second * (intervalCount start end_ time.Second + 1).
Proof.
  apply (intervalCount_exact_within_104_days (63900000000 * time.Second)
           (63900000000 * time.Second + 3500000000) time.Second).
  - vm_compute. split; reflexivity.
  - vm_compute. split; [reflexivity | discriminate].
Defined.

(** C5. [intervalCount] is not the truncated quotient of the distance by
    the interval for every pair of instants: the distance goes through
    [float64], which keeps 53 bits. At a distance of 9007199999999999 ns (a
    nanosecond short of 9007200 seconds) and an interval of one second the
    distance is rounded up to 9007200000000000 and the count is 9007200,
    while only 9007199 intervals have completely passed; at a distance of
    [2^53 + 1] ns and an interval of one nanosecond the count is [2^53],
    one short. *)
Theorem intervalCount_float64_rounding :
  let start := 63900000000 * time.Second in
  intervalCount start (start + 9007199999999999) time.Second = 9007200
  /\ Z.abs (start + 9007199999999999 - start) / time.Second = 9007199
  /\ intervalCount start (start + (2 ^ 53 + 1)) time.Nanosecond = 2 ^ 53
  /\ Z.abs (start + (2 ^ 53 + 1) - start) / time.Nanosecond = 2 ^ 53 + 1.
Proof. vm_compute. repeat split. Qed.

(** C6 as stated fails. Across [2^53 + 1] ns with an interval of one
    nanosecond the count is one short and [nextAfter] answers [end_]
    itself, which is not after [end_]. From the zero [time.Time] to a
    present-day instant, [Sub] saturates at the largest [Duration] (about
    292 years) and the answer lies centuries before [end_]. *)
Lemma nextAfter_not_after_end :
  (let start := 63900000000 * time.Second in
   let end_ := start + (2 ^ 53 + 1) in
   nextAfter start end_ time.Nanosecond = end_)
  /\ (let end_ := 63900000000 * time.Second in
      nextAfter time.zero end_ time.Second = 9223372037 * time.Second
      /\ 9223372037 * time.Second < end_).
Proof. vm_compute. repeat split. Qed.

(** C6, amended. For [end_] at or after [start] and less than [2^53] ns
    (about 104 days) after it, and every positive interval, [nextAfter]
    answers the earliest instant [start + k * interval], [k >= 0], that is
    strictly after [end_]. *)
Theorem nextAfter_earliest (start end_ : time.Time) (interval : time.Duration) :
  0 <= end_ - start < 2 ^ 53 ->
  0 < interval <= max_int64 ->
  let next := nextAfter start end_ interval in
  end_ < next
  /\ (exists k : Z, 0 <= k /\ next = start + k * interval)
  /\ (forall k : Z, 0 <= k -> end_ < start + k * interval ->
        next <= start + k * interval).
Proof.
  intros Hd Hi next. subst next. unfold nextAfter.
  rewrite intervalCount_exact by lia.
  rewrite Z.abs_eq by lia.
  pose proof (Z.div_mod (end_ - start) interval ltac:(lia)) as Hdm.
  pose proof (Z.mod_pos_bound (end_ - start) interval ltac:(lia)) as Hr.
  assert (Hq : 0 <= (end_ - start) / interval) by (apply Z.div_pos; lia).
  set (q := (end_ - start) / interval) in *.
  set (r := (end_ - start) mod interval) in *.
  rewrite mul64_exact by (unfold in_int64, min_int64, max_int64 in *; nia).
  unfold time.After, time.Add.
  destruct (Z.ltb_spec end_ (start + q * interval)) as [Hlt | Hge]; [nia |].
  split; [nia |]. split.
  - exists (q + 1). split; [lia | lia].
  - intros k Hk Hafter.
    assert (q + 1 <= k) by nia. nia.
Qed.

Lemma nextAfter_earliest_witness :
  let start := 63900000000 * time.Second in
  let end_ := start + 1500000000 in
  end_ < nextAfter start end_ time.Second
  /\ (exists k : Z, 0 <= k /\ nextAfter start end_ time.Second = start + k * time.Second)
  /\ (forall k : Z, 0 <= k -> end_ < start + k * time.Second ->
        nextAfter start end_ time.Second <= start + k * time.Second).
Proof.
  apply (nextAfter_earliest (63900000000 * time.Second)
           (63900000000 * time.Second + 1500000000) time.Second).
  - vm_compute. split; [discriminate | reflexivity].
  - vm_compute. split; [reflexivity | discriminate].
Defined.

(** ** [refill] *)

(** The method, run on a receiver, is the reference algorithm. *)
Lemma refill_reconcile (b : Bucket) (t : time.Time) :
  refill t b = (tt, reconcile b t).
Proof.
  unfold refill, reconcile, skipDiff, bind, this, ret, set_tokens, set_lastUpdate.
  destruct (tokens b =? Burst b); [reflexivity |].
  cbn [tokens Burst Limit Refill lastUpdate with_tokens with_lastUpdate].
  destruct (Burst b <=? _); reflexivity.
Qed.

Lemma reconcile_config (b : Bucket) (t : time.Time) :
  Limit (reconcile b t) = Limit b
  /\ Burst (reconcile b t) = Burst b
  /\ Refill (reconcile b t) = Refill b.
Proof.
  unfold reconcile.
  destruct (tokens b =? Burst b); [easy |].
  destruct (Burst b <=? _); easy.
Qed.

Lemma reconcile_tokens_le_Burst (b : Bucket) (t : time.Time) :
  tokens (reconcile b t) <= Burst b.
Proof.
  unfold reconcile.
  destruct (Z.eqb_spec (tokens b) (Burst b)) as [He | Hne]; cbn; [lia |].
  destruct (Z.leb_spec (Burst b) (add64 (tokens b)
    (mul64 (intervalCount (lastUpdate b) t (Refill b)) (Limit b)))); cbn; lia.
Qed.

Lemma reconcile_ok (b : Bucket) (t : time.Time) :
  bucket_ok b -> bucket_ok (reconcile b t).
Proof.
  unfold bucket_ok, reconcile. intros (HL & HB & HR & HT).
  destruct (tokens b =? Burst b); cbn; [easy |].
  destruct (Burst b <=? _); cbn;
    (split; [| split; [| split]]); try assumption; apply wrap64_in_int64.
Qed.

(** C1. [refill] follows the reference algorithm of the specification. The
    configuration is untouched. A saturated bucket only gets [lastUpdate]
    set to the query time [t]. Otherwise, with
    [delta = intervalCount lastUpdate t Refill] and the balance raised by
    [delta * Limit]: a raised balance that meets or exceeds [Burst] is
    clamped to [Burst] and [lastUpdate] is set to [t]; a raised balance
    below [Burst] is kept and [lastUpdate] is advanced by
    [delta * Refill], not moved to [t]. The sum and the products are those
    of [int64], and are the exact ones whenever these fit. *)
Theorem refill_follows_reference (b : Bucket) (t : time.Time) :
  let b' := snd (refill t b) in
  let delta := intervalCount (lastUpdate b) t (Refill b) in
  let balance := add64 (tokens b) (mul64 delta (Limit b)) in
  b' = reconcile b t
  /\ (Limit b' = Limit b /\ Burst b' = Burst b /\ Refill b' = Refill b)
  /\ (tokens b = Burst b ->
        tokens b' = tokens b /\ lastUpdate b' = t)
  /\ (tokens b <> Burst b -> Burst b <= balance ->
        tokens b' = Burst b /\ lastUpdate b' = t)
  /\ (tokens b <> Burst b -> balance < Burst b ->
        tokens b' = balance
        /\ lastUpdate b' = time.Add (lastUpdate b) (mul64 delta (Refill b)))
  /\ (in_int64 (delta * Limit b) -> in_int64 (tokens b + delta * Limit b) ->
        balance = tokens b + delta * Limit b)
  /\ (in_int64 (delta * Refill b) ->
        time.Add (lastUpdate b) (mul64 delta (Refill b))
        = lastUpdate b + delta * Refill b).
Proof.
  intros b' delta balance. subst b'.
  rewrite refill_reconcile. cbn [snd].
  split; [reflexivity |].
  split; [apply reconcile_config |].
  unfold reconcile. fold delta. fold balance.
  destruct (Z.eqb_spec (tokens b) (Burst b)) as [Heq | Hne];
    [| destruct (Z.leb_spec (Burst b) balance) as [Hge | Hlt]];
    cbn [tokens lastUpdate with_tokens with_lastUpdate].
  all: split; [intros; try contradiction; try lia; split; reflexivity |].
  all: split; [intros; try contradiction; try lia; split; reflexivity |].
  all: split; [intros; try contradiction; try lia; split; reflexivity |].
  all: split.
  all: try (intros H1 H2; subst balance; rewrite mul64_exact by assumption;
            apply add64_exact; assumption).
  all: intros H; rewrite mul64_exact by assumption; reflexivity.
Qed.

(** ** The reconciling operations act on the reconciled bucket *)

Lemma CanDrawAt_reconcile (b : Bucket) (t : time.Time) (n : Z) :
  CanDrawAt t n b = (n <=? tokens (reconcile b t), reconcile b t).
Proof. unfold CanDrawAt, bind. rewrite refill_reconcile. reflexivity. Qed.

Lemma TokensAt_reconcile (b : Bucket) (t : time.Time) :
  TokensAt t b = (tokens (reconcile b t), reconcile b t).
Proof. unfold TokensAt, bind. rewrite refill_reconcile. reflexivity. Qed.

Lemma IsResetAt_reconcile (b : Bucket) (t : time.Time) :
  IsResetAt t b = (tokens (reconcile b t) =? Burst (reconcile b t), reconcile b t).
Proof. unfold IsResetAt, bind. rewrite refill_reconcile. reflexivity. Qed.

Lemma SetTokensAt_reconcile (b : Bucket) (t : time.Time) (v : Z) :
  SetTokensAt t v b = (tt, with_tokens (reconcile b t) v).
Proof. unfold SetTokensAt, bind. rewrite refill_reconcile. reflexivity. Qed.

Lemma DrawAt_reconcile (b : Bucket) (t : time.Time) (n : Z) :
  DrawAt t n b =
  let r := reconcile b t in
  if tokens r <? n then (false, r)
  else (true, with_tokens r (sub64 (tokens r) n)).
Proof.
  unfold DrawAt, bind. rewrite refill_reconcile. unfold this.
  cbv zeta. destruct (tokens (reconcile b t) <? n); reflexivity.
Qed.

Lemma DrawMaxAt_reconcile (b : Bucket) (t : time.Time) (n : Z) :
  DrawMaxAt t n b =
  let r := reconcile b t in
  (min n (tokens r), with_tokens r (sub64 (tokens r) (min n (tokens r)))).
Proof. unfold DrawMaxAt, bind. rewrite refill_reconcile. reflexivity. Qed.

Lemma ForceDrawAt_reconcile (b : Bucket) (t : time.Time) (n : Z) :
  ForceDrawAt t n b =
  let r := reconcile b t in
  (sub64 (tokens r) n, with_tokens r (sub64 (tokens r) n)).
Proof. unfold ForceDrawAt, bind. rewrite refill_reconcile. reflexivity. Qed.

(** C7. Right after the refill computation the balance is at most
    [Burst], whatever it was before: also when [SetTokensAt] had pushed it
    above [Burst], and with no condition on the sign of [Limit]. The
    operations that only read ([TokensAt], [CanDrawAt], [IsResetAt]) leave
    that reconciled balance in the bucket. *)
Theorem refill_tokens_le_Burst (b : Bucket) (t : time.Time) :
  tokens (snd (refill t b)) <= Burst (snd (refill t b))
  /\ Burst (snd (refill t b)) = Burst b
  /\ (forall (t0 : time.Time) (v : Z),
        let pushed := snd (SetTokensAt t0 v b) in
        tokens pushed = v
        /\ tokens (snd (refill t pushed)) <= Burst b)
  /\ tokens (snd (TokensAt t b)) <= Burst b
  /\ (forall n : Z, tokens (snd (CanDrawAt t n b)) <= Burst b)
  /\ tokens (snd (IsResetAt t b)) <= Burst b.
Proof.
  rewrite refill_reconcile. cbn [snd].
  destruct (reconcile_config b t) as (_ & HB & _).
  pose proof (reconcile_tokens_le_Burst b t) as Hle.
  split; [lia |]. split; [exact HB |]. split.
  - intros t0 v. cbv zeta.
    rewrite SetTokensAt_reconcile. cbn [snd]. split; [reflexivity |].
    rewrite refill_reconcile. cbn [snd].
    pose proof (reconcile_tokens_le_Burst (with_tokens (reconcile b t0) v) t) as H.
    cbn [Burst with_tokens] in H.
    destruct (reconcile_config b t0) as (_ & HB0 & _). lia.
  - rewrite TokensAt_reconcile, IsResetAt_reconcile. cbn [snd].
    split; [exact Hle |]. split; [| exact Hle].
    intros n. rewrite CanDrawAt_reconcile. exact Hle.
Qed.

(** C3. [DrawAt] is all or nothing. With [n >= 0]: when the reconciled
    balance at [t] is at least [n], the call answers true and the balance
    is the reconciled one less exactly [n]; when it is below [n], the call
    answers false and the bucket is the reconciled one, its balance not
    drawn from. *)
Theorem DrawAt_all_or_nothing (b : Bucket) (t : time.Time) (n : Z) :
  bucket_ok b -> 0 <= n ->
  let reconciled := snd (refill t b) in
  (n <= tokens reconciled ->
     DrawAt t n b = (true, with_tokens reconciled (tokens reconciled - n)))
  /\ (tokens reconciled < n ->
     DrawAt t n b = (false, reconciled)).
Proof.
  intros Hok Hn reconciled. subst reconciled.
  rewrite refill_reconcile, DrawAt_reconcile. cbn [snd]. cbv zeta.
  destruct (reconcile_ok b t Hok) as (_ & _ & _ & HT).
  destruct (Z.ltb_spec (tokens (reconcile b t)) n) as [Hlt | Hge].
  - split; [lia | reflexivity].
  - split; [| lia]. intros _.
    rewrite sub64_exact; [reflexivity |].
    unfold in_int64, min_int64, max_int64 in *. lia.
Qed.

Lemma DrawAt_all_or_nothing_witness :
  let b := NewBucket 5 20 time.Second in
  let t := 63900000000 * time.Second in
  DrawAt t 15 b = (true, with_tokens (snd (refill t b)) (tokens (snd (refill t b)) - 15))
  /\ DrawAt (t + time.Second) 25 b = (false, snd (refill (t + time.Second) b)).
Proof.
  assert (Hok : bucket_ok (NewBucket 5 20 time.Second)).
  { concrete_ok. }
  assert (H15 : 0 <= 15) by lia.
  assert (H25 : 0 <= 25) by lia.
  split.
  - apply (proj1 (DrawAt_all_or_nothing _ (63900000000 * time.Second) 15 Hok H15)).
    vm_compute. discriminate.
  - apply (proj2 (DrawAt_all_or_nothing _
                    (63900000000 * time.Second + time.Second) 25 Hok H25)).
    vm_compute. reflexivity.
Defined.

(** C10. [DrawMaxAt] answers [min n balance] for the reconciled balance
    and takes that amount off it, for every [n], the negative ones too:
    with [n < 0] and a reconciled balance of at least [n], the call
    answers [n] and the balance goes up by [|n|]. The subtraction is that
    of [int64]; it is the exact one for every [n >= 0], and for [n < 0]
    as long as the raised balance fits. *)
Theorem DrawMaxAt_draws_min (b : Bucket) (t : time.Time) (n : Z) :
  bucket_ok b ->
  let reconciled := snd (refill t b) in
  let drawn := Z.min n (tokens reconciled) in
  DrawMaxAt t n b
  = (drawn, with_tokens reconciled (sub64 (tokens reconciled) drawn))
  /\ (0 <= n \/ tokens reconciled - n <= max_int64 ->
        sub64 (tokens reconciled) drawn = tokens reconciled - drawn)
  /\ (n < 0 -> n <= tokens reconciled ->
        fst (DrawMaxAt t n b) = n
        /\ tokens (snd (DrawMaxAt t n b)) = wrap64 (tokens reconciled + Z.abs n)
        /\ (tokens reconciled + Z.abs n <= max_int64 ->
              tokens (snd (DrawMaxAt t n b)) = tokens reconciled + Z.abs n)).
Proof.
  intros Hok reconciled drawn. subst reconciled drawn.
  rewrite refill_reconcile, DrawMaxAt_reconcile. cbn [snd fst]. cbv zeta.
  rewrite min_is_Zmin.
  destruct (reconcile_ok b t Hok) as (_ & _ & _ & HT).
  set (r := reconcile b t) in *.
  split; [reflexivity |]. split.
  - intros H. apply sub64_exact.
    unfold in_int64, min_int64, max_int64 in *. lia.
  - intros Hneg Hle. cbn [tokens with_tokens].
    replace (Z.min n (tokens r)) with n by lia.
    split; [reflexivity |].
    split; [unfold sub64; f_equal; lia |].
    intros Hfit. rewrite sub64_exact; [lia |].
    unfold in_int64, min_int64, max_int64 in *. lia.
Qed.

Lemma DrawMaxAt_draws_min_witness :
  let b := NewBucket 5 20 time.Second in
  let t := 63900000000 * time.Second in
  DrawMaxAt t 7 b = (7, with_tokens (snd (refill t b)) 13)
  /\ DrawMaxAt t (-3) b = (-3, with_tokens (snd (refill t b)) 23).
Proof.
  assert (Hok : bucket_ok (NewBucket 5 20 time.Second)).
  { concrete_ok. }
  split.
  - exact (proj1 (DrawMaxAt_draws_min _ (63900000000 * time.Second) 7 Hok)).
  - exact (proj1 (DrawMaxAt_draws_min _ (63900000000 * time.Second) (-3) Hok)).
Defined.

(** [InferTokensAt] writes nothing. *)
Lemma InferTokensAt_frame (b : Bucket) (t : time.Time) :
  snd (InferTokensAt t b) = b.
Proof.
  unfold InferTokensAt, bind, this, ret.
  destruct (Refill b =? 0); [reflexivity |].
  destruct (Burst b <? _); reflexivity.
Qed.

(** Under the caller's contract and a nonnegative [Limit], where the
    interval count is exact and the credit fits [int64], the integer
    quotient of [InferTokensAt] is the count of [refill], and its answer
    the reconciled balance. *)
Lemma InferTokensAt_reconcile (b : Bucket) (t : time.Time) :
  bucket_ok b ->
  0 < Refill b -> 0 <= Limit b ->
  0 <= t - lastUpdate b < 2 ^ 53 ->
  in_int64 ((t - lastUpdate b) / Refill b * Limit b) ->
  in_int64 (tokens b + (t - lastUpdate b) / Refill b * Limit b) ->
  fst (InferTokensAt t b) = Some (tokens (reconcile b t)).
Proof.
  intros (_ & _ & HR & _) HR0 HL0 Hd Hprod Hsum.
  assert (Hq : 0 <= (t - lastUpdate b) / Refill b <= t - lastUpdate b).
  { split; [apply Z.div_pos; lia |].
    apply Z.div_le_upper_bound; [lia | nia]. }
  unfold InferTokensAt, bind, this, ret, reconcile.
  destruct (Z.eqb_spec (Refill b) 0) as [| _]; [lia |].
  rewrite Sub_exact by (unfold in_int64, min_int64, max_int64; lia).
  rewrite Z.quot_div_nonneg by lia.
  rewrite (wrap64_id ((t - lastUpdate b) / Refill b))
    by (unfold in_int64, min_int64, max_int64; lia).
  rewrite intervalCount_exact, Z.abs_eq
    by (unfold in_int64 in HR; lia).
  set (q := (t - lastUpdate b) / Refill b) in *.
  rewrite (mul64_exact q (Limit b)) by assumption.
  rewrite add64_exact by assumption.
  assert (Hcredit : 0 <= q * Limit b) by nia.
  destruct (Z.ltb_spec (Burst b) (tokens b + q * Limit b)) as [Hover | Hunder];
    cbn [fst]; f_equal;
    destruct (Z.eqb_spec (tokens b) (Burst b)) as [Heq | Hne];
    try destruct (Z.leb_spec (Burst b) (tokens b + q * Limit b));
    cbn [tokens with_tokens with_lastUpdate]; lia.
Qed.

(** A saturated [Sub] is still a distance that is not negative. *)
Lemma Sub_nonneg (t u : time.Time) :
  0 <= t - u -> 0 <= time.Sub t u <= max_int64 /\ time.Sub t u <= t - u.
Proof.
  intros H. unfold time.Sub, time.minDuration, time.maxDuration, min_int64, max_int64.
  destruct (Z.ltb_spec (t - u) (- 2 ^ 63)); [lia |].
  destruct (Z.ltb_spec (2 ^ 63 - 1) (t - u)); lia.
Qed.

(** On a full bucket the forecast is [Burst], whatever the distance,
    when the credit fits [int64]. *)
Lemma InferTokensAt_full (b : Bucket) (t : time.Time) :
  0 < Refill b -> 0 <= Limit b ->
  0 <= t - lastUpdate b ->
  tokens b = Burst b ->
  in_int64 (time.Sub t (lastUpdate b) / Refill b * Limit b) ->
  in_int64 (tokens b + time.Sub t (lastUpdate b) / Refill b * Limit b) ->
  fst (InferTokensAt t b) = Some (tokens (reconcile b t)).
Proof.
  intros HR0 HL0 Hd Hfull Hprod Hsum.
  destruct (Sub_nonneg t (lastUpdate b) Hd) as [Hsub _].
  assert (Hq : 0 <= time.Sub t (lastUpdate b) / Refill b <= time.Sub t (lastUpdate b)).
  { split; [apply Z.div_pos; lia |].
    apply Z.div_le_upper_bound; [lia | nia]. }
  unfold InferTokensAt, bind, this, ret, reconcile.
  destruct (Z.eqb_spec (Refill b) 0) as [| _]; [lia |].
  rewrite Z.quot_div_nonneg by lia.
  rewrite (wrap64_id (time.Sub t (lastUpdate b) / Refill b))
    by (unfold in_int64, min_int64, max_int64 in *; lia).
  set (q := time.Sub t (lastUpdate b) / Refill b) in *.
  rewrite (mul64_exact q (Limit b)) by assumption.
  rewrite add64_exact by assumption.
  rewrite (proj2 (Z.eqb_eq _ _) Hfull). cbn [tokens with_lastUpdate].
  assert (Hcredit : 0 <= q * Limit b) by nia.
  destruct (Z.ltb_spec (Burst b) (tokens b + q * Limit b)); cbn [fst]; f_equal; lia.
Qed.

(** C9 as stated fails in its second half: what [InferTokensAt] answers is
    not the projected balance for every bucket and instant. On a bucket
    just made with 2000 tokens a microsecond and 2000 at most, asked at a
    present-day instant, it answers 384, where the balance at that instant
    is 2000: [lastUpdate] is still the zero [time.Time], [Sub] saturates,
    and the product of the count and [Limit] wraps around. *)
Lemma InferTokensAt_is_not_the_balance :
  let t := 63900000000 * time.Second in
  let b := NewBucket 2000 2000 time.Microsecond in
  fst (InferTokensAt t b) = Some 384
  /\ fst (TokensAt t b) = 2000
  /\ snd (InferTokensAt t b) = b.
Proof. vm_compute. repeat split. Qed.

(** C9, amended. [InferTokensAt] leaves every bucket as it found it, at
    every instant, balance and [lastUpdate] included (also when a zero
    [Refill] makes its division panic). For a bucket with [int64] fields,
    a positive [Refill] and a nonnegative [Limit], at an instant not
    before [lastUpdate], when the bucket is full or the instant is less
    than [2^53] ns after [lastUpdate], and the credit fits [int64] (the
    whole intervals in the distance as [Sub] gives it, times [Limit],
    alone and added to the balance), what it answers is the projected
    balance: the balance that [TokensAt] reads at that instant when
    nothing is drawn in between. *)
Theorem InferTokensAt_read_only :
  (forall (b : Bucket) (t : time.Time),
      snd (InferTokensAt t b) = b
      /\ tokens (snd (InferTokensAt t b)) = tokens b
      /\ lastUpdate (snd (InferTokensAt t b)) = lastUpdate b)
  /\ (forall (b : Bucket) (t : time.Time),
        bucket_ok b ->
        0 < Refill b -> 0 <= Limit b ->
        0 <= t - lastUpdate b ->
        tokens b = Burst b \/ t - lastUpdate b < 2 ^ 53 ->
        in_int64 (time.Sub t (lastUpdate b) / Refill b * Limit b) ->
        in_int64 (tokens b + time.Sub t (lastUpdate b) / Refill b * Limit b) ->
        fst (InferTokensAt t b) = Some (fst (TokensAt t b))).
Proof.
  split.
  - intros b t. rewrite InferTokensAt_frame. repeat split.
  - intros b t Hok HR HL Hd Hcase Hprod Hsum.
    rewrite TokensAt_reconcile. cbn [fst].
    destruct Hcase as [Hfull | Hnear].
    + apply InferTokensAt_full; assumption.
    + rewrite Sub_exact in Hprod, Hsum
        by (unfold in_int64, min_int64, max_int64; lia).
      apply InferTokensAt_reconcile; (assumption || lia).
Qed.

Lemma InferTokensAt_read_only_witness :
  let t0 := 63900000000 * time.Second in
  let fresh := NewBucket 5 20 time.Second in
  let emptied := snd (DrawAt t0 20 fresh) in
  fst (InferTokensAt t0 fresh) = Some (fst (TokensAt t0 fresh))
  /\ fst (InferTokensAt (t0 + 3200000000) emptied)
     = Some (fst (TokensAt (t0 + 3200000000) emptied)).
Proof.
  intros t0 fresh emptied. split.
  - apply (proj2 InferTokensAt_read_only fresh t0).
    + concrete_ok.
    + vm_compute. reflexivity.
    + vm_compute. discriminate.
    + vm_compute. discriminate.
    + left. reflexivity.
    + concrete_ok.
    + concrete_ok.
  - apply (proj2 InferTokensAt_read_only emptied (t0 + 3200000000)).
    + concrete_ok.
    + vm_compute. reflexivity.
    + vm_compute. discriminate.
    + vm_compute. discriminate.
    + right. vm_compute. reflexivity.
    + concrete_ok.
    + concrete_ok.
Defined.

(** ** Reconciling twice at the same instant *)

Lemma mul64_0_l (a : Z) : mul64 0 a = 0.
Proof. reflexivity. Qed.

(** Under the caller's contract ([t] not before [lastUpdate]) and within
    the range where the interval count is exact, a second reconciliation
    at the same instant changes nothing. *)
Lemma reconcile_twice (b : Bucket) (t : time.Time) :
  0 < Refill b <= max_int64 ->
  0 <= t - lastUpdate b < 2 ^ 53 ->
  reconcile (reconcile b t) t = reconcile b t.
Proof.
  intros HR Hd. unfold reconcile at 2 3.
  destruct (Z.eqb_spec (tokens b) (Burst b)) as [Heq | Hne].
  - unfold reconcile. cbn [tokens Burst with_lastUpdate].
    rewrite (proj2 (Z.eqb_eq _ _) Heq). reflexivity.
  - rewrite intervalCount_exact, Z.abs_eq by lia.
    pose proof (Z.div_mod (t - lastUpdate b) (Refill b) ltac:(lia)) as Hdm.
    pose proof (Z.mod_pos_bound (t - lastUpdate b) (Refill b) ltac:(lia)) as Hr.
    assert (Hq : 0 <= (t - lastUpdate b) / Refill b) by (apply Z.div_pos; lia).
    set (q := (t - lastUpdate b) / Refill b) in *.
    set (r := (t - lastUpdate b) mod Refill b) in *.
    rewrite (mul64_exact q (Refill b))
      by (unfold in_int64, min_int64, max_int64 in *; nia).
    set (balance := add64 (tokens b) (mul64 q (Limit b))).
    destruct (Z.leb_spec (Burst b) balance) as [Hge | Hlt].
    + unfold reconcile. cbn [tokens Burst with_tokens with_lastUpdate].
      rewrite Z.eqb_refl. reflexivity.
    + unfold reconcile.
      cbn [tokens Burst Limit Refill lastUpdate with_tokens with_lastUpdate].
      destruct (Z.eqb_spec balance (Burst b)) as [Hbad | _]; [lia |].
      unfold time.Add.
      rewrite intervalCount_exact by lia.
      replace (t - (lastUpdate b + q * Refill b)) with r by lia.
      rewrite Z.abs_eq, Z.div_small by lia.
      rewrite !mul64_0_l, Z.add_0_r.
      assert (Hbal : add64 balance 0 = balance).
      { unfold add64. rewrite Z.add_0_r. subst balance. apply wrap64_idem. }
      rewrite Hbal.
      destruct (Z.leb_spec (Burst b) balance); [lia | reflexivity].
Qed.

(** C8 as stated fails for a timestamp before [lastUpdate]: on a bucket
    emptied at [t0 + 10s], [TokensAt (t0 + 8s)] answers 10 and, asked
    again, 20; [CanDrawAt (t0 + 8s) 15] answers false, then true. The
    first call counts two intervals between the instants and moves
    [lastUpdate] forward by them, away from [t]; the second counts four. *)
Lemma TokensAt_twice_differs :
  let t0 := 63900000000 * time.Second in
  let t := t0 + 8 * time.Second in
  let b := snd (DrawAt (t0 + 10 * time.Second) 20 (NewBucket 5 20 time.Second)) in
  fst (TokensAt t b) = 10
  /\ fst (TokensAt t (snd (TokensAt t b))) = 20
  /\ fst (CanDrawAt t 15 b) = false
  /\ fst (CanDrawAt t 15 (snd (CanDrawAt t 15 b))) = true.
Proof. vm_compute. repeat split. Qed.

(** Beyond [2^53] ns a second read can credit again: with a refill of one
    token a nanosecond, [2^53 + 1] ns after the anchor, the count is short
    by one ([float64] rounds the distance down), the anchor stops one
    nanosecond before [t], and the second read counts that nanosecond. *)
Lemma TokensAt_twice_differs_beyond_2_53 :
  let t0 := 63900000000 * time.Second in
  let b := {| Limit := 1; Burst := 2 ^ 60; Refill := time.Nanosecond;
              tokens := 0; lastUpdate := t0 |} in
  let t := t0 + 2 ^ 53 + 1 in
  fst (TokensAt t b) = 2 ^ 53
  /\ fst (TokensAt t (snd (TokensAt t b))) = 2 ^ 53 + 1.
Proof. vm_compute. repeat split. Qed.

(** A reconciliation that leaves the bucket full has anchored it at [t]:
    the next one at [t] returns at once. No condition on [t] or [Refill]. *)
Lemma reconcile_filled_twice (b : Bucket) (t : time.Time) :
  tokens (reconcile b t) = Burst b ->
  reconcile (reconcile b t) t = reconcile b t.
Proof.
  unfold reconcile at 1 3 4.
  destruct (Z.eqb_spec (tokens b) (Burst b)) as [Heq | Hne].
  - intros _. unfold reconcile. cbn [tokens Burst with_lastUpdate].
    rewrite (proj2 (Z.eqb_eq _ _) Heq). reflexivity.
  - cbv zeta.
    destruct (Z.leb_spec (Burst b)
      (add64 (tokens b) (mul64 (intervalCount (lastUpdate b) t (Refill b)) (Limit b))))
      as [Hge | Hlt]; cbn [tokens with_tokens with_lastUpdate]; intros H.
    + unfold reconcile. cbn [tokens Burst with_tokens with_lastUpdate].
      rewrite Z.eqb_refl. reflexivity.
    + lia.
Qed.

(** Less than one interval before [lastUpdate] no interval is counted,
    the first time and the second. *)
Lemma reconcile_twice_before (b : Bucket) (t : time.Time) :
  0 < Refill b <= max_int64 ->
  - Refill b < t - lastUpdate b <= 0 ->
  - 2 ^ 53 < t - lastUpdate b ->
  reconcile (reconcile b t) t = reconcile b t.
Proof.
  intros HR Hd Hd53.
  assert (Hcount : intervalCount (lastUpdate b) t (Refill b) = 0).
  { rewrite intervalCount_exact by lia. apply Z.div_small. lia. }
  unfold reconcile at 2 3.
  destruct (Z.eqb_spec (tokens b) (Burst b)) as [Heq | Hne].
  - unfold reconcile. cbn [tokens Burst with_lastUpdate].
    rewrite (proj2 (Z.eqb_eq _ _) Heq). reflexivity.
  - cbv zeta. rewrite Hcount, !mul64_0_l. unfold time.Add. rewrite Z.add_0_r.
    set (balance := add64 (tokens b) 0).
    assert (Hbal : add64 balance 0 = balance).
    { unfold add64. rewrite Z.add_0_r. subst balance. apply wrap64_idem. }
    destruct (Z.leb_spec (Burst b) balance) as [Hge | Hlt].
    + unfold reconcile. cbn [tokens Burst with_tokens with_lastUpdate].
      rewrite Z.eqb_refl. reflexivity.
    + unfold reconcile.
      cbn [tokens Burst Limit Refill lastUpdate with_tokens with_lastUpdate].
      destruct (Z.eqb_spec balance (Burst b)) as [Hbad | _]; [lia |].
      rewrite Hcount, !mul64_0_l. unfold time.Add. rewrite Z.add_0_r, Hbal.
      destruct (Z.leb_spec (Burst b) balance); [lia |].
      destruct b; reflexivity.
Qed.

(** C8, amended. [TokensAt t] asked twice in a row answers the same both
    times, and so does [CanDrawAt t n], the second call leaving the bucket
    as the first left it, in each of these cases: the bucket is full (as
    every new and every reset bucket is), at every [t] and for every
    [Refill]; the first call fills the bucket, at every [t] and for every
    [Refill]; or [Refill] is positive and [t] is later than one interval
    before [lastUpdate] and less than [2^53] ns away from it on either
    side. *)
Theorem read_twice_same_result (b : Bucket) (t : time.Time) (n : Z) :
  tokens b = Burst b
  \/ tokens (snd (refill t b)) = Burst b
  \/ (0 < Refill b <= max_int64
      /\ - Refill b < t - lastUpdate b
      /\ - 2 ^ 53 < t - lastUpdate b < 2 ^ 53) ->
  TokensAt t (snd (TokensAt t b)) = TokensAt t b
  /\ CanDrawAt t n (snd (CanDrawAt t n b)) = CanDrawAt t n b.
Proof.
  intros H.
  rewrite !TokensAt_reconcile, !CanDrawAt_reconcile. cbn [snd].
  assert (Htwice : reconcile (reconcile b t) t = reconcile b t).
  { destruct H as [Hfull | [Hfilled | (HR & Hlo & Hd)]].
    - apply reconcile_filled_twice. unfold reconcile.
      rewrite (proj2 (Z.eqb_eq _ _) Hfull). exact Hfull.
    - rewrite refill_reconcile in Hfilled. apply reconcile_filled_twice, Hfilled.
    - destruct (Z.le_gt_cases 0 (t - lastUpdate b)).
      + apply reconcile_twice; [assumption | lia].
      + apply reconcile_twice_before; [assumption | lia | lia]. }
  rewrite Htwice. split; reflexivity.
Qed.

Lemma read_twice_same_result_witness :
  let t0 := 63900000000 * time.Second in
  let fresh := NewBucket 5 20 time.Second in
  let emptied := snd (DrawAt (t0 + 10 * time.Second) 20 fresh) in
  let idle := t0 + 10 * time.Second + 100000000 * time.Second in
  let later := t0 + 12 * time.Second + 500000000 in
  let earlier := t0 + 9 * time.Second + 500000000 in
  (TokensAt t0 (snd (TokensAt t0 fresh)) = TokensAt t0 fresh
   /\ CanDrawAt t0 15 (snd (CanDrawAt t0 15 fresh)) = CanDrawAt t0 15 fresh)
  /\ (TokensAt idle (snd (TokensAt idle emptied)) = TokensAt idle emptied
      /\ CanDrawAt idle 15 (snd (CanDrawAt idle 15 emptied)) = CanDrawAt idle 15 emptied)
  /\ (TokensAt later (snd (TokensAt later emptied)) = TokensAt later emptied
      /\ CanDrawAt later 15 (snd (CanDrawAt later 15 emptied)) = CanDrawAt later 15 emptied)
  /\ (TokensAt earlier (snd (TokensAt earlier emptied)) = TokensAt earlier emptied
      /\ CanDrawAt earlier 15 (snd (CanDrawAt earlier 15 emptied))
         = CanDrawAt earlier 15 emptied).
Proof.
  intros t0 fresh emptied idle later earlier.
  split; [| split; [| split]].
  - apply (read_twice_same_result fresh t0 15).
    left. vm_compute. reflexivity.
  - apply (read_twice_same_result emptied idle 15).
    right. left. vm_compute. reflexivity.
  - apply (read_twice_same_result emptied later 15).
    right. right. vm_compute.
    split; [split; [reflexivity | discriminate] |].
    split; [reflexivity | split; reflexivity].
  - apply (read_twice_same_result emptied earlier 15).
    right. right. vm_compute.
    split; [split; [reflexivity | discriminate] |].
    split; [reflexivity | split; reflexivity].
Defined.

(** ** The forecast of [InferTokensAt] against the reconciled balance *)

(** Under the caller's contract and a nonnegative [Limit], where the
    interval count is exact and the credit fits [int64], the forecast of
    [InferTokensAt] at [t] is the balance [TokensAt] reads at [t]. *)
Lemma InferTokensAt_forecasts_TokensAt (b : Bucket) (t : time.Time) :
  bucket_ok b ->
  0 < Refill b -> 0 <= Limit b ->
  0 <= t - lastUpdate b < 2 ^ 53 ->
  in_int64 ((t - lastUpdate b) / Refill b * Limit b) ->
  in_int64 (tokens b + (t - lastUpdate b) / Refill b * Limit b) ->
  fst (InferTokensAt t b) = Some (fst (TokensAt t b)).
Proof.
  intros (HL & HB & HR & HT) HR0 HL0 Hd Hprod Hsum.
  assert (HRmax : Refill b <= max_int64) by (unfold in_int64 in HR; lia).
  assert (Hq : 0 <= (t - lastUpdate b) / Refill b <= t - lastUpdate b).
  { split; [apply Z.div_pos; lia |].
    apply Z.div_le_upper_bound; [lia | nia]. }
  rewrite TokensAt_reconcile. cbn [fst].
  unfold InferTokensAt, bind, this, ret, reconcile.
  destruct (Z.eqb_spec (Refill b) 0) as [| _]; [lia |].
  rewrite Sub_exact by (unfold in_int64, min_int64, max_int64; lia).
  rewrite Z.quot_div_nonneg by lia.
  rewrite (wrap64_id ((t - lastUpdate b) / Refill b))
    by (unfold in_int64, min_int64, max_int64; lia).
  rewrite intervalCount_exact, Z.abs_eq by lia.
  set (q := (t - lastUpdate b) / Refill b) in *.
  rewrite (mul64_exact q (Limit b)) by assumption.
  rewrite add64_exact by assumption.
  destruct (Z.eqb_spec (tokens b) (Burst b)) as [Heq | Hne];
    cbn [tokens with_tokens with_lastUpdate].
  - destruct (Z.ltb_spec (Burst b) (tokens b + q * Limit b)); cbn [fst];
      f_equal; nia.
  - destruct (Z.ltb_spec (Burst b) (tokens b + q * Limit b));
      destruct (Z.leb_spec (Burst b) (tokens b + q * Limit b));
      cbn [fst tokens with_tokens with_lastUpdate]; f_equal; lia.
Qed.

Lemma InferTokensAt_forecasts_TokensAt_witness :
  let t0 := 63900000000 * time.Second in
  let b := snd (DrawAt t0 20 (NewBucket 5 20 time.Second)) in
  fst (InferTokensAt (t0 + 2500000000) b)
  = Some (fst (TokensAt (t0 + 2500000000) b)).
Proof.
  apply (InferTokensAt_forecasts_TokensAt
           (snd (DrawAt (63900000000 * time.Second) 20 (NewBucket 5 20 time.Second)))
           (63900000000 * time.Second + 2500000000)).
  - concrete_ok.
  - vm_compute. reflexivity.
  - vm_compute. discriminate.
  - vm_compute. split; [discriminate | reflexivity].
  - concrete_ok.
  - concrete_ok.
Defined.

(** ** The refill scenario: 5 tokens a second, 20 at most *)

Lemma Sub_after (t0 : time.Time) (d : Z) : time.Sub (t0 + d) t0 = time.Sub d 0.
Proof. unfold time.Sub. replace (t0 + d - t0) with (d - 0) by lia. reflexivity. Qed.

Lemma intervalCount_after (t0 : time.Time) (d : Z) (i : time.Duration) :
  intervalCount t0 (t0 + d) i = intervalCount 0 d i.
Proof. unfold intervalCount. rewrite Sub_after. reflexivity. Qed.

(** One reconciliation of a bucket of the scenario that is not full, [d]
    after its anchor: the new balance and the advance of the anchor come
    from evaluating the count on the closed distance [d]. *)
Lemma scenario_step (tk : Z) (lu : time.Time) (d tk' d' : Z) :
  (tk =? 20) = false ->
  (let delta := intervalCount 0 d time.Second in
   let balance := add64 tk (mul64 delta 5) in
   if 20 <=? balance then (20, d) else (balance, mul64 delta time.Second))
  = (tk', d') ->
  reconcile (scenario_bucket tk lu) (lu + d) = scenario_bucket tk' (lu + d').
Proof.
  intros Hne Hstep. unfold reconcile.
  cbn [tokens Burst Limit Refill lastUpdate scenario_bucket].
  rewrite Hne, intervalCount_after. cbv zeta in Hstep. unfold time.Add.
  destruct (20 <=? _); injection Hstep as <- <-; reflexivity.
Qed.

Lemma scenario_full (lu t : time.Time) :
  reconcile (scenario_bucket 20 lu) t = scenario_bucket 20 t.
Proof. reflexivity. Qed.

Lemma scenario_drawn (t0 : time.Time) :
  DrawAt t0 20 (NewBucket 5 20 time.Second) = (true, scenario_bucket 0 t0).
Proof. rewrite DrawAt_reconcile. reflexivity. Qed.

(** C2 as stated fails at [t0 + 4s]: read after the read at [t0 + 1s],
    with no draw in between, the balance is 20 and not 15. *)
Lemma tokens_at_4s_is_20 :
  let t0 := 63900000000 * time.Second in
  let b1 := snd (DrawAt t0 20 (NewBucket 5 20 time.Second)) in
  let b2 := snd (TokensAt (t0 + 1 * time.Second) b1) in
  fst (TokensAt (t0 + 1 * time.Second) b1) = 5
  /\ fst (TokensAt (t0 + 4 * time.Second) b2) = 20
  /\ fst (TokensAt (t0 + 4 * time.Second) b2) <> 15.
Proof. vm_compute. repeat split. discriminate. Qed.

(** C2, amended. With 5 tokens a second and 20 at most, on a bucket fresh
    from [NewBucket], for every [t0]: drawing 20 at [t0] succeeds;
    [TokensAt (t0 + 1s)] answers 5; after that read, [TokensAt (t0 + 3s)]
    answers 15 and [TokensAt (t0 + 4s)] answers 20, four intervals of 5
    reaching the cap; a credit beyond the cap is cut to 20 (25 at
    [t0 + 5s] read right after the draw); and once at 20 the balance
    reads 20 at every instant. *)
Theorem refill_scenario (t0 : time.Time) :
  let s := time.Second in
  let b0 := NewBucket 5 20 s in
  let b1 := snd (DrawAt t0 20 b0) in
  let b2 := snd (TokensAt (t0 + 1 * s) b1) in
  let b3 := snd (TokensAt (t0 + 3 * s) b2) in
  fst (DrawAt t0 20 b0) = true
  /\ fst (TokensAt (t0 + 1 * s) b1) = 5
  /\ fst (TokensAt (t0 + 3 * s) b2) = 15
  /\ fst (TokensAt (t0 + 4 * s) b2) = 20
  /\ fst (TokensAt (t0 + 4 * s) b3) = 20
  /\ fst (TokensAt (t0 + 5 * s) b1) = 20
  /\ (forall t : time.Time,
        fst (TokensAt t (snd (TokensAt (t0 + 4 * s) b2))) = 20).
Proof.
  intros s b0 b1 b2 b3. subst s b0 b1 b2 b3.
  rewrite scenario_drawn. cbn [fst snd].
  rewrite !TokensAt_reconcile. cbn [fst snd].
  assert (H1 : reconcile (scenario_bucket 0 t0) (t0 + 1 * time.Second)
               = scenario_bucket 5 (t0 + 1 * time.Second)).
  { apply scenario_step; vm_compute; reflexivity. }
  assert (H5 : reconcile (scenario_bucket 0 t0) (t0 + 5 * time.Second)
               = scenario_bucket 20 (t0 + 5 * time.Second)).
  { apply scenario_step; vm_compute; reflexivity. }
  assert (H3 : reconcile (scenario_bucket 5 (t0 + 1 * time.Second))
                 (t0 + 3 * time.Second)
               = scenario_bucket 15 (t0 + 3 * time.Second)).
  { replace (t0 + 3 * time.Second)
      with (t0 + 1 * time.Second + 2 * time.Second) by lia.
    apply scenario_step; vm_compute; reflexivity. }
  assert (H4 : reconcile (scenario_bucket 5 (t0 + 1 * time.Second))
                 (t0 + 4 * time.Second)
               = scenario_bucket 20 (t0 + 4 * time.Second)).
  { replace (t0 + 4 * time.Second)
      with (t0 + 1 * time.Second + 3 * time.Second) by lia.
    apply scenario_step; vm_compute; reflexivity. }
  assert (H4' : reconcile (scenario_bucket 15 (t0 + 3 * time.Second))
                  (t0 + 4 * time.Second)
                = scenario_bucket 20 (t0 + 4 * time.Second)).
  { replace (t0 + 4 * time.Second)
      with (t0 + 3 * time.Second + 1 * time.Second) by lia.
    apply scenario_step; vm_compute; reflexivity. }
  rewrite H1, H5, H3, H4, H4'. cbn [tokens scenario_bucket].
  split; [reflexivity |]. split; [reflexivity |]. split; [reflexivity |].
  split; [reflexivity |]. split; [reflexivity |]. split; [reflexivity |].
  intros t. rewrite ?TokensAt_reconcile. cbn [fst snd].
  rewrite ?H1, ?H4. rewrite scenario_full. reflexivity.
Qed.

(** ** [Purge] *)

Lemma purge_fold_lookup (now : string -> time.Time)
    (l : list (string * Bucket)) (acc : gmap string Bucket) (id : string) :
  NoDup (l.*1) ->
  foldr (uncurry (fun id bucket bs => Manager.purge_step (now id) id bucket bs)) acc l !! id
  = match (list_to_map l : gmap string Bucket) !! id with
    | Some bucket =>
        let (is_reset, bucket') := IsReset (now id) bucket in
        if is_reset then None else Some bucket'
    | None => acc !! id
    end.
Proof.
  induction l as [| [k bk] l IH]; intros Hnd.
  - cbn. rewrite lookup_empty. reflexivity.
  - cbn [foldr uncurry list_to_map fmap list_fmap fst snd] in *.
    apply NoDup_cons in Hnd as [Hk Hnd].
    unfold Manager.purge_step at 1.
    destruct (decide (id = k)) as [-> | Hne].
    + rewrite lookup_insert_eq. cbn [fst snd].
      destruct (IsReset (now k) bk) as [[|] bk'].
      * apply lookup_delete_eq.
      * apply lookup_insert_eq.
    + rewrite lookup_insert_ne by congruence. cbn [fst snd].
      destruct (IsReset (now k) bk) as [[|] bk'].
      * rewrite lookup_delete_ne by congruence. apply IH, Hnd.
      * rewrite lookup_insert_ne by congruence. apply IH, Hnd.
Qed.

(** What [Purge] leaves in the registry: an entry stays, reconciled at its
    visit, exactly when its bucket does not answer true to [IsReset]. *)
Lemma Purge_lookup (now : string -> time.Time) (m : BucketManager) (id : string) :
  buckets (snd (Manager.Purge now m)) !! id
  = match buckets m !! id with
    | Some bucket =>
        let (is_reset, bucket') := IsReset (now id) bucket in
        if is_reset then None else Some bucket'
    | None => None
    end.
Proof.
  unfold Manager.Purge, bind, this, store, ret. cbn [snd buckets with_buckets].
  rewrite map_fold_foldr, purge_fold_lookup by apply NoDup_fst_map_to_list.
  rewrite list_to_map_to_list.
  destruct (buckets m !! id) eqn:E; reflexivity.
Qed.

(** C4. [Purge] deletes the entries whose bucket answers true to [IsReset]
    and keeps the others, but the number it returns is 0 whatever it
    deleted: [removed] is declared at 0 and the loop never adds to it. On
    a registry holding a full bucket ["a"] and a bucket ["b"] drawn from,
    [Purge] deletes ["a"] alone, and returns 0 instead of 1. *)
Theorem Purge_returns_zero :
  (forall (now : string -> time.Time) (m : BucketManager),
      fst (Manager.Purge now m) = 0)
  /\ (let t0 := 63900000000 * time.Second in
      let m0 := New 5 20 time.Second in
      let m1 := snd (Manager.TokensAt "a" t0 m0) in
      let m2 := snd (Manager.DrawAt "b" t0 3 m1) in
      let now := fun _ : string => t0 + 1 in
      size (buckets m2) = 2%nat
      /\ size (buckets (snd (Manager.Purge now m2))) = 1%nat
      /\ buckets (snd (Manager.Purge now m2)) !! "a" = None
      /\ tokens <$> buckets (snd (Manager.Purge now m2)) !! "b" = Some 17
      /\ fst (Manager.Purge now m2) = 0).
Proof.
  split; [reflexivity |].
  vm_compute. repeat split.
Qed.

(** ** Reconciliation under the caller's contract *)

(** Bounds and equations between closed terms. *)
Ltac concrete :=
  vm_compute;
  repeat match goal with |- _ /\ _ => split end;
  first [reflexivity | discriminate].

(** Under the contract the count is the integer quotient, and the advance
    of the anchor does not overflow. *)
Lemma reconcile_in_contract (b : Bucket) (t : time.Time) :
  in_contract b t ->
  reconcile b t =
  if tokens b =? Burst b then with_lastUpdate b t
  else
    let q := (t - lastUpdate b) / Refill b in
    let balance := add64 (tokens b) (mul64 q (Limit b)) in
    if Burst b <=? balance then with_lastUpdate (with_tokens b (Burst b)) t
    else with_lastUpdate (with_tokens b balance) (lastUpdate b + q * Refill b).
Proof.
  intros [HR Hd]. unfold reconcile.
  rewrite intervalCount_exact, Z.abs_eq by lia.
  pose proof (Z.div_mod (t - lastUpdate b) (Refill b) ltac:(lia)) as Hdm.
  pose proof (Z.mod_pos_bound (t - lastUpdate b) (Refill b) ltac:(lia)) as Hr.
  assert (Hq : 0 <= (t - lastUpdate b) / Refill b) by (apply Z.div_pos; lia).
  rewrite (mul64_exact _ (Refill b))
    by (unfold in_int64, min_int64, max_int64 in *; nia).
  reflexivity.
Qed.

Lemma quotient_bounds (d R : Z) :
  0 <= d -> 0 < R -> 0 <= d / R /\ d / R * R <= d < (d / R + 1) * R.
Proof.
  intros Hd HR.
  pose proof (Z.div_mod d R ltac:(lia)).
  pose proof (Z.mod_pos_bound d R ltac:(lia)).
  split; [apply Z.div_pos; lia | lia].
Qed.

(** The reconciled bucket in closed form, when the credit fits. *)
Lemma reconcile_closed_form (b : Bucket) (t : time.Time) :
  in_contract b t -> credit_fits b t ->
  let q := (t - lastUpdate b) / Refill b in
  reconcile b t =
  if tokens b =? Burst b then with_lastUpdate b t
  else if Burst b <=? tokens b + q * Limit b
       then with_lastUpdate (with_tokens b (Burst b)) t
       else with_lastUpdate (with_tokens b (tokens b + q * Limit b))
              (lastUpdate b + q * Refill b).
Proof.
  intros Hc [Hp Hs] q. rewrite reconcile_in_contract by assumption.
  cbv zeta. fold q. fold q in Hp, Hs.
  rewrite (mul64_exact q (Limit b)) by assumption.
  rewrite add64_exact by assumption. reflexivity.
Qed.

Lemma in_contract_with_tokens (b : Bucket) (t : time.Time) (v : Z) :
  in_contract (with_tokens b v) t <-> in_contract b t.
Proof. reflexivity. Qed.

(** Where [refill] leaves the anchor. *)
Lemma reconcile_anchor (b : Bucket) (t : time.Time) :
  in_contract b t ->
  lastUpdate b <= lastUpdate (reconcile b t) <= t
  /\ t - lastUpdate (reconcile b t) < Refill b
  /\ (tokens (reconcile b t) = Burst b -> lastUpdate (reconcile b t) = t)
  /\ (tokens (reconcile b t) <> Burst b ->
        exists k : Z, 0 <= k
          /\ lastUpdate (reconcile b t) = lastUpdate b + k * Refill b).
Proof.
  intros Hc. rewrite reconcile_in_contract by assumption.
  destruct Hc as [HR Hd].
  destruct (quotient_bounds (t - lastUpdate b) (Refill b)) as [Hq Hqr]; try lia.
  destruct (Z.eqb_spec (tokens b) (Burst b)) as [Heq | Hne];
    [| cbv zeta; destruct (Z.leb_spec (Burst b)
         (add64 (tokens b) (mul64 ((t - lastUpdate b) / Refill b) (Limit b))))];
    cbn [tokens lastUpdate with_tokens with_lastUpdate].
  - split; [lia |]. split; [lia |]. split; [reflexivity |]. congruence.
  - split; [lia |]. split; [lia |]. split; [reflexivity |]. congruence.
  - split; [lia |]. split; [lia |]. split; [lia |]. intros _.
    exists ((t - lastUpdate b) / Refill b). split; [lia | reflexivity].
Qed.

Lemma reconcile_in_contract_again (b : Bucket) (t t' : time.Time) :
  in_contract b t -> t <= t' -> t' - lastUpdate b < 2 ^ 53 ->
  in_contract (reconcile b t) t'.
Proof.
  intros Hc Ht Ht'. pose proof (reconcile_anchor b t Hc) as (Ha & _).
  destruct (reconcile_config b t) as (_ & _ & HR).
  destruct Hc as [HR0 Hd]. unfold in_contract. rewrite HR. lia.
Qed.

(** A balance [v] written at [t] and read again at [t]. *)
Lemma reconcile_after_write (b : Bucket) (t : time.Time) (v : Z) :
  in_contract b t -> in_int64 v ->
  tokens (reconcile (with_tokens (reconcile b t) v) t) = Z.min v (Burst b).
Proof.
  intros Hc Hv.
  pose proof (reconcile_anchor b t Hc) as (Ha & Hlt & _).
  destruct (reconcile_config b t) as (HL & HB & HR).
  assert (Hc' : in_contract (with_tokens (reconcile b t) v) t).
  { apply in_contract_with_tokens, reconcile_in_contract_again; try assumption;
      destruct Hc; lia. }
  rewrite reconcile_in_contract by assumption.
  cbn [tokens Burst Limit Refill lastUpdate with_tokens]. rewrite HB, HR.
  destruct (Z.eqb_spec v (Burst b)) as [-> | Hne]; cbn [tokens with_lastUpdate with_tokens]; [lia |].
  cbv zeta. rewrite Z.div_small by lia.
  rewrite mul64_0_l. unfold add64. rewrite Z.add_0_r, wrap64_id by assumption.
  destruct (Z.leb_spec (Burst b) v); cbn [tokens with_lastUpdate with_tokens]; lia.
Qed.

(** X4. A bucket just made by [NewBucket], or just reset by [ResetAt], is
    full: at every instant (earlier ones included) [TokensAt] reads [Burst]
    and only moves [lastUpdate] to that instant, [IsResetAt] answers true,
    and [DrawAt] grants [n] exactly when [n <= Burst]. [ResetAt] itself
    does not reconcile: it writes [Burst] and the instant, whatever the
    bucket held. *)
Theorem fresh_or_reset_reads_Burst
    (limit burst : Z) (refill_ : time.Duration) (b : Bucket) (t0 t : time.Time) :
  TokensAt t (NewBucket limit burst refill_)
  = (burst, with_lastUpdate (NewBucket limit burst refill_) t)
  /\ fst (IsResetAt t (NewBucket limit burst refill_)) = true
  /\ snd (ResetAt t0 b) = with_lastUpdate (with_tokens b (Burst b)) t0
  /\ TokensAt t (snd (ResetAt t0 b))
     = (Burst b, with_lastUpdate (with_tokens b (Burst b)) t)
  /\ fst (IsResetAt t (snd (ResetAt t0 b))) = true
  /\ (forall n : Z, fst (DrawAt t n (snd (ResetAt t0 b))) = (n <=? Burst b)).
Proof.
  assert (Hfull : forall b' : Bucket, tokens b' = Burst b' ->
            reconcile b' t = with_lastUpdate b' t).
  { intros b' H. unfold reconcile. rewrite (proj2 (Z.eqb_eq _ _) H). reflexivity. }
  rewrite !TokensAt_reconcile, !IsResetAt_reconcile.
  assert (HR : snd (ResetAt t0 b) = with_lastUpdate (with_tokens b (Burst b)) t0)
    by reflexivity.
  rewrite HR.
  rewrite (Hfull (NewBucket limit burst refill_)) by reflexivity.
  rewrite (Hfull (with_lastUpdate (with_tokens b (Burst b)) t0)) by reflexivity.
  cbn [fst snd tokens Burst NewBucket with_lastUpdate with_tokens].
  rewrite !Z.eqb_refl.
  split; [reflexivity |]. split; [reflexivity |]. split; [reflexivity |].
  split; [reflexivity |]. split; [reflexivity |].
  intros n. rewrite DrawAt_reconcile.
  rewrite (Hfull (with_lastUpdate (with_tokens b (Burst b)) t0)) by reflexivity.
  cbv zeta. cbn [tokens with_lastUpdate with_tokens].
  destruct (Z.ltb_spec (Burst b) n), (Z.leb_spec n (Burst b)); try lia; reflexivity.
Qed.

(** X5. [SetTokensAt] stores the balance it is given as it is, above
    [Burst] or below 0 included; the next read at the same instant clamps
    it: [TokensAt] reads [min v Burst], and [RemainingAt] reads that
    balance, or 0 when it is negative. *)
Theorem SetTokensAt_then_TokensAt (b : Bucket) (t : time.Time) (v : Z) :
  in_contract b t -> in_int64 v ->
  tokens (snd (SetTokensAt t v b)) = v
  /\ fst (TokensAt t (snd (SetTokensAt t v b))) = Z.min v (Burst b)
  /\ fst (RemainingAt t (snd (SetTokensAt t v b))) = Z.max 0 (Z.min v (Burst b)).
Proof.
  intros Hc Hv. rewrite SetTokensAt_reconcile. cbn [snd].
  split; [reflexivity |].
  unfold RemainingAt, bind. rewrite TokensAt_reconcile. cbn [fst].
  rewrite reconcile_after_write by assumption.
  split; [reflexivity |].
  destruct (Z.ltb_spec (Z.min v (Burst b)) 0); cbn [fst ret]; unfold ret; cbn [fst]; lia.
Qed.

Lemma SetTokensAt_then_TokensAt_witness :
  let b := scenario_bucket 3 (63900000000 * time.Second) in
  let t := 63900000000 * time.Second + 2500000000 in
  tokens (snd (SetTokensAt t 50 b)) = 50
  /\ fst (TokensAt t (snd (SetTokensAt t 50 b))) = Z.min 50 (Burst b)
  /\ fst (RemainingAt t (snd (SetTokensAt t 50 b))) = Z.max 0 (Z.min 50 (Burst b)).
Proof.
  apply (SetTokensAt_then_TokensAt (scenario_bucket 3 (63900000000 * time.Second))
           (63900000000 * time.Second + 2500000000) 50).
  - concrete.
  - concrete.
Defined.

Lemma RemainingAt_reconcile (b : Bucket) (t : time.Time) :
  RemainingAt t b = (Z.max 0 (tokens (reconcile b t)), reconcile b t).
Proof.
  unfold RemainingAt, bind. rewrite TokensAt_reconcile.
  destruct (Z.ltb_spec (tokens (reconcile b t)) 0); unfold ret; f_equal; lia.
Qed.

(** X6. [RemainingAt] reads what can be drawn: it is never negative, it is
    the balance [TokensAt] reads, or 0 when that balance is negative, it
    leaves the bucket as [TokensAt] does, and a positive [n] is granted by
    [DrawAt], and announced by [CanDrawAt], exactly when
    [n <= RemainingAt]. *)
Theorem RemainingAt_is_what_can_be_drawn (b : Bucket) (t : time.Time) :
  0 <= fst (RemainingAt t b)
  /\ snd (RemainingAt t b) = snd (TokensAt t b)
  /\ fst (RemainingAt t b) = Z.max 0 (fst (TokensAt t b))
  /\ (forall n : Z, 0 < n ->
        fst (CanDrawAt t n b) = (n <=? fst (RemainingAt t b))
        /\ fst (DrawAt t n b) = (n <=? fst (RemainingAt t b))).
Proof.
  rewrite RemainingAt_reconcile, TokensAt_reconcile. cbn [fst snd].
  split; [lia |]. split; [reflexivity |]. split; [reflexivity |].
  intros n Hn. rewrite CanDrawAt_reconcile, DrawAt_reconcile. cbv zeta. cbn [fst].
  set (tk := tokens (reconcile b t)).
  destruct (Z.leb_spec n tk), (Z.leb_spec n (Z.max 0 tk)), (Z.ltb_spec tk n);
    try lia; split; reflexivity.
Qed.

(** X7. [ForceDrawAt] draws [n] from the reconciled balance whatever the
    balance is and answers what is left, negative when the bucket is
    overdrawn; read again at the same instant, [TokensAt] gives that
    number and [RemainingAt] gives it or 0. *)
Theorem ForceDrawAt_overdraws_and_reads_back (b : Bucket) (t : time.Time) (n : Z) :
  bucket_ok b -> in_contract b t -> 0 <= n ->
  let reconciled := snd (refill t b) in
  min_int64 <= tokens reconciled - n ->
  ForceDrawAt t n b
  = (tokens reconciled - n, with_tokens reconciled (tokens reconciled - n))
  /\ fst (TokensAt t (snd (ForceDrawAt t n b))) = tokens reconciled - n
  /\ fst (RemainingAt t (snd (ForceDrawAt t n b))) = Z.max 0 (tokens reconciled - n).
Proof.
  intros Hok Hc Hn reconciled Hmin. subst reconciled.
  rewrite refill_reconcile in *. cbn [snd] in *.
  rewrite ForceDrawAt_reconcile. cbv zeta.
  destruct (reconcile_ok b t Hok) as (_ & _ & _ & HT).
  pose proof (reconcile_tokens_le_Burst b t) as Hle.
  assert (Hfit : in_int64 (tokens (reconcile b t) - n))
    by (unfold in_int64, max_int64 in *; lia).
  rewrite sub64_exact by assumption. cbn [snd].
  split; [reflexivity |].
  rewrite RemainingAt_reconcile, TokensAt_reconcile. cbn [fst].
  rewrite reconcile_after_write by assumption.
  split; f_equal; lia.
Qed.

Lemma ForceDrawAt_overdraws_and_reads_back_witness :
  let b := scenario_bucket 3 (63900000000 * time.Second) in
  let t := 63900000000 * time.Second + time.Second in
  let reconciled := snd (refill t b) in
  ForceDrawAt t 30 b
  = (tokens reconciled - 30, with_tokens reconciled (tokens reconciled - 30))
  /\ fst (TokensAt t (snd (ForceDrawAt t 30 b))) = tokens reconciled - 30
  /\ fst (RemainingAt t (snd (ForceDrawAt t 30 b))) = Z.max 0 (tokens reconciled - 30).
Proof.
  apply (ForceDrawAt_overdraws_and_reads_back (scenario_bucket 3 (63900000000 * time.Second))
           (63900000000 * time.Second + time.Second) 30).
  - concrete.
  - concrete.
  - concrete.
  - concrete.
Defined.

(** Reconciling at [t1] and then at [t2] is reconciling at [t2]: no
    fraction of an interval is lost at [t1], since the anchor advances by
    whole intervals. *)
Lemma reconcile_compose (b : Bucket) (t1 t2 : time.Time) :
  in_contract b t2 -> credit_fits b t2 ->
  in_int64 (tokens b) -> 0 <= Limit b ->
  lastUpdate b <= t1 <= t2 ->
  reconcile (reconcile b t1) t2 = reconcile b t2.
Proof.
  intros Hc2 Hf2 HT HL Ht.
  assert (Hc1 : in_contract b t1) by (destruct Hc2; split; lia).
  destruct Hc2 as [HR Hd2]. destruct Hf2 as [Hp2 Hs2].
  destruct (quotient_bounds (t1 - lastUpdate b) (Refill b)) as [Hq1 Hqr1]; try lia.
  destruct (quotient_bounds (t2 - lastUpdate b) (Refill b)) as [Hq2 Hqr2]; try lia.
  assert (Hq12 : (t1 - lastUpdate b) / Refill b <= (t2 - lastUpdate b) / Refill b)
    by (apply Z.div_le_mono; lia).
  set (q1 := (t1 - lastUpdate b) / Refill b) in *.
  set (q2 := (t2 - lastUpdate b) / Refill b) in *.
  assert (Hf1 : credit_fits b t1).
  { unfold credit_fits. fold q1. unfold in_int64, min_int64, max_int64 in *.
    split; nia. }
  rewrite (reconcile_closed_form b t1), (reconcile_closed_form b t2)
    by (assumption || (split; assumption)).
  cbv zeta. fold q1 q2.
  assert (Hfull : forall b' : Bucket, tokens b' = Burst b' ->
            reconcile b' t2 = with_lastUpdate b' t2).
  { intros b' H. unfold reconcile. rewrite (proj2 (Z.eqb_eq _ _) H). reflexivity. }
  destruct (Z.eqb_spec (tokens b) (Burst b)) as [Heq | Hne].
  - rewrite Hfull by assumption. reflexivity.
  - destruct (Z.leb_spec (Burst b) (tokens b + q1 * Limit b)) as [Hge1 | Hlt1].
    + rewrite Hfull by reflexivity.
      destruct (Z.leb_spec (Burst b) (tokens b + q2 * Limit b)); [reflexivity | nia].
    + set (r1 := with_lastUpdate (with_tokens b (tokens b + q1 * Limit b))
                   (lastUpdate b + q1 * Refill b)).
      assert (Hq : (t2 - lastUpdate r1) / Refill r1 = q2 - q1).
      { subst r1. cbn [lastUpdate Refill with_lastUpdate with_tokens].
        replace (t2 - (lastUpdate b + q1 * Refill b))
          with (t2 - lastUpdate b + (- q1) * Refill b) by ring.
        rewrite Z.div_add by lia. fold q2. lia. }
      assert (Hc' : in_contract r1 t2).
      { subst r1. unfold in_contract.
        cbn [lastUpdate Refill with_lastUpdate with_tokens]. lia. }
      assert (Hf' : credit_fits r1 t2).
      { unfold credit_fits. rewrite Hq. subst r1.
        cbn [tokens Limit with_lastUpdate with_tokens].
        unfold in_int64, min_int64, max_int64 in *. split; nia. }
      rewrite (reconcile_closed_form r1 t2) by assumption.
      cbv zeta. rewrite Hq. subst r1.
      cbn [tokens Burst Limit Refill lastUpdate with_lastUpdate with_tokens].
      destruct (Z.eqb_spec (tokens b + q1 * Limit b) (Burst b)); [lia |].
      replace (tokens b + q1 * Limit b + (q2 - q1) * Limit b)
        with (tokens b + q2 * Limit b) by ring.
      replace (lastUpdate b + q1 * Refill b + (q2 - q1) * Refill b)
        with (lastUpdate b + q2 * Refill b) by ring.
      destruct (Z.leb_spec (Burst b) (tokens b + q2 * Limit b)); reflexivity.
Qed.

(** X8. A read in between does not change what a later call sees: after
    [TokensAt], [CanDrawAt], [IsResetAt] or [RemainingAt] at [t1], a call
    at [t2 >= t1] answers, and leaves the bucket, as if the read had not
    been made (non-negative [Limit], timestamps within the caller's
    contract, credit within [int64]). *)
Theorem intermediate_read_is_invisible (b : Bucket) (t1 t2 : time.Time) (n1 n2 : Z) :
  in_contract b t2 -> credit_fits b t2 ->
  in_int64 (tokens b) -> 0 <= Limit b ->
  lastUpdate b <= t1 <= t2 ->
  TokensAt t2 (snd (TokensAt t1 b)) = TokensAt t2 b
  /\ DrawAt t2 n2 (snd (CanDrawAt t1 n1 b)) = DrawAt t2 n2 b
  /\ DrawAt t2 n2 (snd (IsResetAt t1 b)) = DrawAt t2 n2 b
  /\ DrawMaxAt t2 n2 (snd (RemainingAt t1 b)) = DrawMaxAt t2 n2 b.
Proof.
  intros Hc Hf HT HL Ht.
  pose proof (reconcile_compose b t1 t2 Hc Hf HT HL Ht) as H.
  rewrite !TokensAt_reconcile, !DrawAt_reconcile, !DrawMaxAt_reconcile,
    CanDrawAt_reconcile, IsResetAt_reconcile, RemainingAt_reconcile.
  cbn [snd]. rewrite H. repeat split.
Qed.

Lemma intermediate_read_is_invisible_witness :
  let b := scenario_bucket 0 (63900000000 * time.Second) in
  let t1 := 63900000000 * time.Second + 1500000000 in
  let t2 := 63900000000 * time.Second + 3200000000 in
  TokensAt t2 (snd (TokensAt t1 b)) = TokensAt t2 b
  /\ DrawAt t2 12 (snd (CanDrawAt t1 3 b)) = DrawAt t2 12 b
  /\ DrawAt t2 12 (snd (IsResetAt t1 b)) = DrawAt t2 12 b
  /\ DrawMaxAt t2 12 (snd (RemainingAt t1 b)) = DrawMaxAt t2 12 b.
Proof.
  apply (intermediate_read_is_invisible (scenario_bucket 0 (63900000000 * time.Second))
           (63900000000 * time.Second + 1500000000) (63900000000 * time.Second + 3200000000) 3 12).
  - concrete.
  - concrete.
  - concrete.
  - concrete.
  - concrete.
Defined.

Lemma NextRefillAt_reconcile (b : Bucket) (t : time.Time) :
  NextRefillAt t b
  = (nextAfter (lastUpdate (reconcile b t)) t (Refill (reconcile b t)), reconcile b t).
Proof. unfold NextRefillAt, bind. rewrite refill_reconcile. reflexivity. Qed.

(** X9. [NextRefillAt] reconciles the bucket as [refill] does and answers
    the instant one interval after the reconciled anchor, which lies after
    [t] and at most one interval later. The answer is the instant of the
    next credit: before it every read gives the reconciled balance, and
    at it the balance is one [Limit] higher, [Burst] at most. *)
Theorem NextRefillAt_announces_next_credit (b : Bucket) (t : time.Time) :
  bucket_ok b -> in_contract b t ->
  t - lastUpdate b + Refill b < 2 ^ 53 ->
  0 <= Limit b ->
  let next := fst (NextRefillAt t b) in
  let reconciled := snd (NextRefillAt t b) in
  in_int64 (tokens reconciled + Limit b) ->
  reconciled = snd (refill t b)
  /\ next = lastUpdate reconciled + Refill b
  /\ t < next <= t + Refill b
  /\ (forall t' : time.Time, t <= t' < next ->
        fst (TokensAt t' reconciled) = tokens reconciled)
  /\ fst (TokensAt next reconciled) = Z.min (Burst b) (tokens reconciled + Limit b).
Proof.
  intros Hok Hc Hspan HL next reconciled. subst next reconciled.
  rewrite NextRefillAt_reconcile, refill_reconcile. cbn [fst snd]. intros Hfit.
  pose proof (reconcile_anchor b t Hc) as (Ha & Hlt & Hfull & _).
  destruct (reconcile_config b t) as (HLr & HBr & HRr).
  destruct (reconcile_ok b t Hok) as (_ & _ & _ & HTr).
  pose proof (reconcile_tokens_le_Burst b t) as Hle.
  destruct Hc as [HR Hd].
  set (r := reconcile b t) in *.
  assert (Hnext : nextAfter (lastUpdate r) t (Refill r) = lastUpdate r + Refill b).
  { unfold nextAfter. rewrite HRr.
    rewrite intervalCount_exact, Z.abs_eq, Z.div_small by lia.
    rewrite mul64_0_l. unfold time.Add, time.After. rewrite Z.add_0_r.
    destruct (Z.ltb_spec t (lastUpdate r)); [lia | reflexivity]. }
  rewrite Hnext.
  split; [reflexivity |]. split; [reflexivity |]. split; [lia |].
  split.
  - intros t' Ht'. rewrite TokensAt_reconcile. cbn [fst].
    assert (Hc' : in_contract r t') by (unfold in_contract; rewrite HRr; lia).
    rewrite reconcile_in_contract by assumption. rewrite HRr, HBr.
    destruct (Z.eqb_spec (tokens r) (Burst b)); [reflexivity |].
    cbv zeta. rewrite Z.div_small by lia.
    rewrite mul64_0_l. unfold add64. rewrite Z.add_0_r, wrap64_id by assumption.
    destruct (Z.leb_spec (Burst b) (tokens r)); [lia | reflexivity].
  - rewrite TokensAt_reconcile. cbn [fst].
    assert (Hc' : in_contract r (lastUpdate r + Refill b))
      by (unfold in_contract; rewrite HRr; lia).
    rewrite reconcile_in_contract by assumption. rewrite HRr, HBr, HLr.
    destruct (Z.eqb_spec (tokens r) (Burst b)) as [Heq | Hne];
      cbn [tokens with_lastUpdate]; [lia |].
    cbv zeta.
    replace (lastUpdate r + Refill b - lastUpdate r) with (1 * Refill b) by ring.
    rewrite Z.div_mul by lia.
    rewrite mul64_exact
      by (rewrite Z.mul_1_l; destruct Hok as (HLi & _); exact HLi).
    rewrite Z.mul_1_l, add64_exact by assumption.
    destruct (Z.leb_spec (Burst b) (tokens r + Limit b));
      cbn [tokens with_lastUpdate with_tokens]; lia.
Qed.

Lemma NextRefillAt_announces_next_credit_witness :
  let b := scenario_bucket 0 (63900000000 * time.Second) in
  let t := 63900000000 * time.Second + 2500000000 in
  let next := fst (NextRefillAt t b) in
  let reconciled := snd (NextRefillAt t b) in
  reconciled = snd (refill t b)
  /\ next = lastUpdate reconciled + Refill b
  /\ t < next <= t + Refill b
  /\ (forall t' : time.Time, t <= t' < next ->
        fst (TokensAt t' reconciled) = tokens reconciled)
  /\ fst (TokensAt next reconciled) = Z.min (Burst b) (tokens reconciled + Limit b).
Proof.
  apply (NextRefillAt_announces_next_credit (scenario_bucket 0 (63900000000 * time.Second))
           (63900000000 * time.Second + 2500000000)).
  - concrete.
  - concrete.
  - concrete.
  - concrete.
  - concrete.
Defined.

(** X10. [CanDrawAt] predicts [DrawAt]: at the same instant both give the
    same answer, and the draw made after the check answers, and leaves
    the bucket, as the draw made without it. *)
Theorem CanDrawAt_predicts_DrawAt (b : Bucket) (t : time.Time) (n : Z) :
  in_contract b t ->
  fst (CanDrawAt t n b) = fst (DrawAt t n b)
  /\ DrawAt t n (snd (CanDrawAt t n b)) = DrawAt t n b.
Proof.
  intros [HR Hd]. rewrite CanDrawAt_reconcile, !DrawAt_reconcile. cbn [fst snd].
  rewrite reconcile_twice by assumption. cbv zeta.
  split; [| reflexivity].
  destruct (Z.leb_spec n (tokens (reconcile b t))),
           (Z.ltb_spec (tokens (reconcile b t)) n); try lia; reflexivity.
Qed.

Lemma CanDrawAt_predicts_DrawAt_witness :
  let b := scenario_bucket 0 (63900000000 * time.Second) in
  let t := 63900000000 * time.Second + 2500000000 in
  fst (CanDrawAt t 7 b) = fst (DrawAt t 7 b)
  /\ DrawAt t 7 (snd (CanDrawAt t 7 b)) = DrawAt t 7 b.
Proof.
  apply (CanDrawAt_predicts_DrawAt (scenario_bucket 0 (63900000000 * time.Second))
           (63900000000 * time.Second + 2500000000) 7).
  concrete.
Defined.

(** X11. On a bucket in debt (a negative reconciled balance, as
    [ForceDrawAt] or [SetTokensAt] can leave) [DrawMaxAt] with [n >= 0]
    answers the negative balance as the number drawn, and the balance it
    leaves is 0: the debt is gone. *)
Theorem DrawMaxAt_on_debt (b : Bucket) (t : time.Time) (n : Z) :
  let reconciled := snd (refill t b) in
  tokens reconciled < 0 -> 0 <= n ->
  DrawMaxAt t n b = (tokens reconciled, with_tokens reconciled 0).
Proof.
  intros reconciled. subst reconciled. rewrite refill_reconcile. cbn [snd].
  intros Hneg Hn. rewrite DrawMaxAt_reconcile. cbv zeta.
  rewrite min_is_Zmin. replace (Z.min n (tokens (reconcile b t)))
    with (tokens (reconcile b t)) by lia.
  unfold sub64. rewrite Z.sub_diag. reflexivity.
Qed.

Lemma DrawMaxAt_on_debt_witness :
  let b := scenario_bucket (-30) (63900000000 * time.Second) in
  let t := 63900000000 * time.Second + time.Second in
  DrawMaxAt t 4 b = (tokens (snd (refill t b)), with_tokens (snd (refill t b)) 0)
  /\ tokens (snd (refill t b)) = -25.
Proof.
  split.
  - apply (DrawMaxAt_on_debt (scenario_bucket (-30) (63900000000 * time.Second))
             (63900000000 * time.Second + time.Second) 4).
    + concrete.
    + concrete.
  - vm_compute. reflexivity.
Defined.

(** X12. A caller that waits long enough is served: once [k] whole
    intervals have passed since [lastUpdate], [DrawAt] grants every
    [n <= Burst] that the balance and [k] credits of [Limit] cover. *)
Theorem DrawAt_served_after_wait (b : Bucket) (t : time.Time) (n k : Z) :
  in_contract b t -> credit_fits b t -> 0 <= Limit b ->
  n <= Burst b ->
  0 <= k -> k * Refill b <= t - lastUpdate b ->
  n <= tokens b + k * Limit b ->
  fst (DrawAt t n b) = true.
Proof.
  intros Hc Hf HL HnB Hk Hwait Hn.
  rewrite DrawAt_reconcile. cbv zeta.
  rewrite reconcile_closed_form by assumption. cbv zeta.
  destruct Hc as [HR Hd].
  assert (Hkq : k <= (t - lastUpdate b) / Refill b)
    by (apply Z.div_le_lower_bound; lia).
  set (q := (t - lastUpdate b) / Refill b) in *.
  destruct (Z.eqb_spec (tokens b) (Burst b)) as [Heq | Hne];
    [| destruct (Z.leb_spec (Burst b) (tokens b + q * Limit b))];
    cbn [tokens with_lastUpdate with_tokens].
  - destruct (Z.ltb_spec (tokens b) n); [lia | reflexivity].
  - destruct (Z.ltb_spec (Burst b) n); [lia | reflexivity].
  - destruct (Z.ltb_spec (tokens b + q * Limit b) n); [nia | reflexivity].
Qed.

Lemma DrawAt_served_after_wait_witness :
  fst (DrawAt (63900000000 * time.Second + 3500000000) 12 (scenario_bucket 0 (63900000000 * time.Second))) = true.
Proof.
  apply (DrawAt_served_after_wait (scenario_bucket 0 (63900000000 * time.Second))
           (63900000000 * time.Second + 3500000000) 12 3).
  - concrete.
  - concrete.
  - concrete.
  - concrete.
  - concrete.
  - concrete.
  - concrete.
Defined.

(** ** The rate limit *)

Lemma serve_all_cons (t : time.Time) (r : request)
    (rest : list (time.Time * request)) (b : Bucket) :
  serve_all ((t, r) :: rest) b
  = (fst (serve t r b) + fst (serve_all rest (snd (serve t r b))),
     snd (serve_all rest (snd (serve t r b)))).
Proof.
  cbn [serve_all]. unfold bind, ret.
  destruct (serve t r b) as [granted b']. cbn [fst snd].
  destruct (serve_all rest b') as [more b'']. reflexivity.
Qed.

Section Rate.

Variables (limit burst : Z) (refill_ : time.Duration) (t0 tn : time.Time).
Hypothesis Hlimit : 0 <= limit.
Hypothesis Hrefill : 0 < refill_ <= max_int64.
Hypothesis Hspan : tn - t0 < 2 ^ 53.
Hypothesis Hcap : burst + limit * ((tn - t0) / refill_) <= max_int64.

Lemma reconcile_rate_invariant (g : Z) (b : Bucket) (t : time.Time) :
  rate_invariant limit burst refill_ t0 g b ->
  lastUpdate b <= t <= tn ->
  rate_invariant limit burst refill_ t0 g (reconcile b t)
  /\ lastUpdate (reconcile b t) <= t.
Proof.
  intros (HL & HB & HR & HT & Hlu & Hg & Hpot) Ht.
  assert (Hc : in_contract b t) by (unfold in_contract; rewrite HR; lia).
  destruct (quotient_bounds (t - lastUpdate b) refill_) as [Hq Hqr]; try lia.
  assert (Hqn : (t - lastUpdate b) / refill_ <= (tn - t0) / refill_)
    by (apply Z.div_le_mono; lia).
  assert (Hf : credit_fits b t).
  { unfold credit_fits. rewrite HR, HL.
    unfold in_int64, min_int64, max_int64 in *. split; nia. }
  pose proof (reconcile_closed_form b t Hc Hf) as Hcf. cbv zeta in Hcf.
  rewrite Hcf, HR, HL, HB. clear Hcf.
  set (q := (t - lastUpdate b) / refill_) in *.
  unfold rate_invariant.
  destruct (Z.eqb_spec (tokens b) burst) as [Heq | Hne];
    [| destruct (Z.leb_spec burst (tokens b + q * limit))];
    cbn [tokens Limit Burst Refill lastUpdate with_lastUpdate with_tokens];
    repeat split; try assumption; try lia; try nia.
Qed.

Lemma serve_rate_invariant (g : Z) (b : Bucket) (t : time.Time) (r : request) :
  rate_invariant limit burst refill_ t0 g b ->
  lastUpdate b <= t <= tn -> 0 <= asked r ->
  rate_invariant limit burst refill_ t0 (g + fst (serve t r b)) (snd (serve t r b))
  /\ lastUpdate (snd (serve t r b)) <= t.
Proof.
  intros Hinv Ht Hr.
  destruct (reconcile_rate_invariant g b t Hinv Ht) as [Hrec Hle].
  pose proof Hrec as (HL & HB & HR & HT & Hlu & Hg & Hpot).
  assert (Hmax : burst <= 2 ^ 63 - 1).
  { assert (0 <= (tn - t0) / refill_).
    { apply Z.div_pos; [| lia]. destruct Hinv as (_ & _ & _ & _ & ? & _). lia. }
    pose proof Hcap as Hcap'. unfold max_int64 in Hcap'. nia. }
  destruct r as [n | n | n |]; cbn [asked] in Hr; unfold serve, bind, ret.
  - rewrite DrawAt_reconcile. cbv zeta.
    destruct (Z.ltb_spec (tokens (reconcile b t)) n); cbn [fst snd].
    + rewrite Z.add_0_r. split; assumption.
    + rewrite sub64_exact by (unfold in_int64, min_int64, max_int64; lia).
      unfold rate_invariant.
      cbn [tokens Limit Burst Refill lastUpdate with_tokens].
      repeat split; try assumption; try lia.
  - rewrite DrawMaxAt_reconcile. cbv zeta. rewrite min_is_Zmin. cbn [fst snd].
    rewrite sub64_exact by (unfold in_int64, min_int64, max_int64; lia).
    unfold rate_invariant.
    cbn [tokens Limit Burst Refill lastUpdate with_tokens].
    repeat split; try assumption; try lia.
  - rewrite CanDrawAt_reconcile. cbn [fst snd]. rewrite Z.add_0_r.
    split; assumption.
  - rewrite TokensAt_reconcile. cbn [fst snd]. rewrite Z.add_0_r.
    split; assumption.
Qed.

Lemma serve_all_rate_invariant (reqs : list (time.Time * request)) :
  forall (g : Z) (b : Bucket) (from : time.Time),
  rate_invariant limit burst refill_ t0 g b ->
  lastUpdate b <= from -> well_timed from reqs -> last_time from reqs <= tn ->
  rate_invariant limit burst refill_ t0
    (g + fst (serve_all reqs b)) (snd (serve_all reqs b))
  /\ lastUpdate (snd (serve_all reqs b)) <= last_time from reqs.
Proof.
  induction reqs as [| [t r] rest IH]; intros g b from Hinv Hfrom Hwt Hlast.
  - cbn. rewrite Z.add_0_r. split; assumption.
  - cbn [well_timed last_time] in Hwt, Hlast. destruct Hwt as (Hft & Hr & Hwt).
    assert (Htn : t <= tn).
    { clear - Hwt Hlast. revert t Hwt Hlast.
      induction rest as [| [t' r'] rest IH]; intros t Hwt Hlast; cbn in *; [lia |].
      destruct Hwt as (? & _ & Hwt). specialize (IH t' Hwt Hlast). lia. }
    destruct (serve_rate_invariant g b t r Hinv ltac:(lia) Hr) as [Hinv' Hle].
    rewrite serve_all_cons. cbn [fst snd].
    specialize (IH (g + fst (serve t r b)) (snd (serve t r b)) t Hinv' Hle Hwt Hlast).
    rewrite Z.add_assoc. exact IH.
Qed.

End Rate.

(** X13. The rate limit. A caller that starts on a new bucket at [t0] and
    makes any calls of [DrawAt], [DrawMaxAt], [CanDrawAt] and [TokensAt]
    with non-negative amounts and non-descending timestamps is handed out,
    in total, at most [burst] tokens and [limit] more for every interval
    of [refill_] between the first call and the last (as a product:
    [refill_ * granted <= refill_ * burst + limit * (tn - t0)]), and the
    balance stays between 0 and [burst]. *)
Theorem granted_within_rate (limit burst : Z) (refill_ : time.Duration)
    (t0 : time.Time) (r0 : request) (reqs : list (time.Time * request)) :
  0 <= limit -> 0 <= burst -> 0 < refill_ <= max_int64 ->
  0 <= asked r0 -> well_timed t0 reqs ->
  let tn := last_time t0 reqs in
  tn - t0 < 2 ^ 53 ->
  burst + limit * ((tn - t0) / refill_) <= max_int64 ->
  let run := serve_all ((t0, r0) :: reqs) (NewBucket limit burst refill_) in
  0 <= fst run
  /\ refill_ * fst run <= refill_ * burst + limit * (tn - t0)
  /\ 0 <= tokens (snd run) <= burst.
Proof.
  intros HL HB HR Hr0 Hwt tn Hspan Hcap run. subst run.
  assert (Htn : t0 <= tn).
  { subst tn. clear - Hwt. revert t0 Hwt.
    induction reqs as [| [t' r'] rest IH]; intros t0 Hwt; cbn in *; [lia |].
    destruct Hwt as (? & _ & Hwt). specialize (IH t' Hwt). lia. }
  assert (Hmax : burst <= 2 ^ 63 - 1).
  { assert (0 <= (tn - t0) / refill_) by (apply Z.div_pos; lia).
    unfold max_int64 in Hcap. nia. }
  (* the first call anchors the fresh bucket at [t0] *)
  assert (Hfresh : reconcile (NewBucket limit burst refill_) t0
                   = with_lastUpdate (NewBucket limit burst refill_) t0).
  { unfold reconcile. cbn [tokens Burst NewBucket]. rewrite Z.eqb_refl. reflexivity. }
  assert (Hinv0 : rate_invariant limit burst refill_ t0
                    (0 + fst (serve t0 r0 (NewBucket limit burst refill_)))
                    (snd (serve t0 r0 (NewBucket limit burst refill_)))
                  /\ lastUpdate (snd (serve t0 r0 (NewBucket limit burst refill_))) <= t0).
  { destruct r0 as [n | n | n |]; cbn [asked] in Hr0; unfold serve, bind, ret;
      rewrite ?DrawAt_reconcile, ?DrawMaxAt_reconcile, ?CanDrawAt_reconcile,
        ?TokensAt_reconcile; cbv zeta; rewrite Hfresh;
      cbn [tokens with_lastUpdate NewBucket].
    - destruct (Z.ltb_spec burst n); cbn [fst snd];
        [| rewrite sub64_exact by (unfold in_int64, min_int64, max_int64; lia)];
        unfold rate_invariant;
        cbn [tokens Limit Burst Refill lastUpdate with_lastUpdate with_tokens NewBucket];
        repeat split; lia.
    - rewrite min_is_Zmin. cbn [fst snd].
      rewrite sub64_exact by (unfold in_int64, min_int64, max_int64; lia).
      unfold rate_invariant;
        cbn [tokens Limit Burst Refill lastUpdate with_lastUpdate with_tokens NewBucket];
        repeat split; lia.
    - cbn [fst snd]. unfold rate_invariant;
        cbn [tokens Limit Burst Refill lastUpdate with_lastUpdate with_tokens NewBucket];
        repeat split; lia.
    - cbn [fst snd]. unfold rate_invariant;
        cbn [tokens Limit Burst Refill lastUpdate with_lastUpdate with_tokens NewBucket];
        repeat split; lia. }
  destruct Hinv0 as [Hinv0 Hle0].
  rewrite serve_all_cons. cbn [fst snd].
  pose proof (serve_all_rate_invariant limit burst refill_ t0 tn HL HR Hspan Hcap
                reqs _ _ t0 Hinv0 Hle0 Hwt ltac:(subst tn; lia)) as Hfin.
  rewrite Z.add_0_l in Hfin.
  destruct Hfin as ((_ & _ & _ & HT & Hlu & Hg & Hpot) & Hlast).
  fold tn in Hlast.
  split; [lia |]. split; [| lia]. nia.
Qed.

Lemma granted_within_rate_witness :
  let t0 := 63900000000 * time.Second in
  let reqs := [(t0 + time.Second, Draw 10); (t0 + time.Second, DrawMax 7);
               (t0 + 3500000000, Draw 10)] in
  let tn := last_time t0 reqs in
  let run := serve_all ((t0, Draw 20) :: reqs) (NewBucket 5 20 time.Second) in
  0 <= fst run
  /\ time.Second * fst run <= time.Second * 20 + 5 * (tn - t0)
  /\ 0 <= tokens (snd run) <= 20.
Proof.
  apply (granted_within_rate 5 20 time.Second (63900000000 * time.Second) (Draw 20)
           [(63900000000 * time.Second + time.Second, Draw 10);
            (63900000000 * time.Second + time.Second, DrawMax 7);
            (63900000000 * time.Second + 3500000000, Draw 10)]).
  - concrete.
  - concrete.
  - concrete.
  - concrete.
  - concrete.
  - concrete.
  - concrete.
Defined.

(** ** The registry *)

Lemma with_buckets_same (m : BucketManager) : with_buckets m (buckets m) = m.
Proof. destruct m. reflexivity. Qed.

Lemma getOrCreate_spec (id : string) (m : BucketManager) :
  Manager.getOrCreate id m
  = (bucket_of m id, with_buckets m (<[id := bucket_of m id]> (buckets m))).
Proof.
  unfold Manager.getOrCreate, Manager.get, Manager.set, bucket_of, bind, this, ret, store.
  destruct (buckets m !! id) as [b |] eqn:E; cbn [default].
  - rewrite insert_id by assumption. rewrite with_buckets_same. reflexivity.
  - reflexivity.
Qed.

Lemma on_bucket_spec {A : Type} (id : string) (op : State Bucket A) (m : BucketManager) :
  Manager.on_bucket id op m
  = (fst (op (bucket_of m id)),
     with_buckets m (<[id := snd (op (bucket_of m id))]> (buckets m))).
Proof.
  unfold Manager.on_bucket, bind. rewrite getOrCreate_spec.
  destruct (op (bucket_of m id)) as [a b']. cbn [fst snd].
  unfold Manager.set, bind, this, store, ret. cbn [buckets with_buckets].
  rewrite insert_insert_eq. reflexivity.
Qed.

(** X15. [Get], [Set] and [Delete]: [Get] after [Set] gives the bucket
    that was set and changes nothing; [Delete] removes the entry of its id
    and no other, and is the identity when there is no entry; [Set]
    touches no other entry; [Get] after [Delete] gives a new bucket with
    the manager's configuration; and a second [Get] gives what the first
    gave and changes nothing. *)
Theorem registry_round_trips (id : string) (b : Bucket) (m : BucketManager) :
  Manager.Get id (snd (Manager.Set_ id b m)) = (b, snd (Manager.Set_ id b m))
  /\ buckets (snd (Manager.Delete id m)) !! id = None
  /\ (forall id' : string, id' <> id ->
        buckets (snd (Manager.Delete id m)) !! id' = buckets m !! id'
        /\ buckets (snd (Manager.Set_ id b m)) !! id' = buckets m !! id')
  /\ (buckets m !! id = None -> snd (Manager.Delete id m) = m)
  /\ fst (Manager.Get id (snd (Manager.Delete id m)))
     = NewBucket (mLimit m) (mBurst m) (mRefill m)
  /\ Manager.Get id (snd (Manager.Get id m))
     = (fst (Manager.Get id m), snd (Manager.Get id m)).
Proof.
  unfold Manager.Get, Manager.Set_, Manager.Delete.
  rewrite !getOrCreate_spec.
  unfold Manager.set, Manager.delete, bind, this, store, ret, bucket_of.
  cbn [fst snd buckets with_buckets mLimit mBurst mRefill].
  split.
  { rewrite lookup_insert_eq. cbn [default].
    rewrite insert_insert_eq. reflexivity. }
  split; [apply lookup_delete_eq |]. split.
  { intros id' Hne. split;
      [apply lookup_delete_ne | apply lookup_insert_ne]; congruence. }
  split.
  { intros Hnone. rewrite delete_id by assumption. apply with_buckets_same. }
  split.
  { rewrite lookup_delete_eq. reflexivity. }
  rewrite lookup_insert_eq. cbn [default].
  rewrite insert_insert_eq. reflexivity.
Qed.

(** X16. What is drawn through the manager stays drawn, until [Delete]:
    after [DrawAt] under [id] the registry holds the bucket the draw left,
    and a later [TokensAt] reads that bucket; after [Delete] the next call
    under [id] finds a full bucket again, whatever was drawn. *)
Theorem manager_draw_is_remembered_until_deleted
    (id : string) (t t' : time.Time) (n : Z) (m : BucketManager) :
  let m1 := snd (Manager.DrawAt id t n m) in
  fst (Manager.Get id m1) = snd (DrawAt t n (bucket_of m id))
  /\ fst (Manager.TokensAt id t' m1)
     = fst (TokensAt t' (snd (DrawAt t n (bucket_of m id))))
  /\ fst (Manager.TokensAt id t' (snd (Manager.Delete id m1))) = mBurst m
  /\ fst (Manager.IsResetAt id t' (snd (Manager.Delete id m1))) = true.
Proof.
  intros m1. subst m1.
  unfold Manager.DrawAt, Manager.TokensAt, Manager.IsResetAt, Manager.Get,
    Manager.Delete.
  rewrite !on_bucket_spec, getOrCreate_spec.
  unfold Manager.delete, bind, this, store, ret, bucket_of.
  cbn [fst snd buckets with_buckets mLimit mBurst mRefill].
  rewrite lookup_insert_eq, lookup_delete_eq. cbn [default].
  split; [reflexivity |]. split; [reflexivity |].
  rewrite TokensAt_reconcile, IsResetAt_reconcile. cbn [fst].
  unfold reconcile. cbn [tokens Burst NewBucket]. rewrite Z.eqb_refl.
  cbn [tokens Burst with_lastUpdate NewBucket]. rewrite Z.eqb_refl.
  split; reflexivity.
Qed.

(** ** [Purge] against the calls that follow *)

Lemma Purge_config (now : string -> time.Time) (m : BucketManager) :
  mLimit (snd (Manager.Purge now m)) = mLimit m
  /\ mBurst (snd (Manager.Purge now m)) = mBurst m
  /\ mRefill (snd (Manager.Purge now m)) = mRefill m.
Proof. repeat split. Qed.

Lemma Purge_entry (now : string -> time.Time) (m : BucketManager) (id : string) :
  buckets (snd (Manager.Purge now m)) !! id
  = match buckets m !! id with
    | Some bucket =>
        let (is_reset, bucket') := IsReset (now id) bucket in
        if is_reset then None else Some bucket'
    | None => None
    end.
Proof.
  unfold Manager.Purge, bind, this, store, ret. cbn [snd buckets with_buckets].
  rewrite map_fold_foldr, purge_fold_lookup by apply NoDup_fst_map_to_list.
  rewrite list_to_map_to_list.
  destruct (buckets m !! id); reflexivity.
Qed.

(** A bucket that [Purge] removed and [getOrCreate] makes again reconciles
    to the bucket that would have been there. *)
Lemma reconcile_purged (now : string -> time.Time) (m : BucketManager)
    (id : string) (t : time.Time) :
  purge_safe m id (now id) t -> now id <= t ->
  reconcile (bucket_of (snd (Manager.Purge now m)) id) t
  = reconcile (bucket_of m id) t.
Proof.
  unfold purge_safe, bucket_of. intros Hsafe Ht.
  rewrite Purge_entry.
  destruct (Purge_config now m) as (-> & -> & ->).
  destruct (buckets m !! id) as [b |]; [| reflexivity].
  destruct Hsafe as (HL & HB & HR & HL0 & HT & Hvisit & Hc & Hf).
  unfold IsReset. rewrite IsResetAt_reconcile. cbn [from_option]; unfold Datatypes.id.
  rewrite <- (reconcile_compose b (now id) t) by (assumption || lia).
  destruct (reconcile_config b (now id)) as (HLr & HBr & HRr).
  destruct (Z.eqb_spec (tokens (reconcile b (now id))) (Burst (reconcile b (now id))))
    as [Hfull | Hnot]; cbn [from_option]; unfold Datatypes.id; [| reflexivity].
  unfold reconcile at 1 2. cbn [tokens Burst NewBucket].
  rewrite Z.eqb_refl, (proj2 (Z.eqb_eq _ _) Hfull).
  destruct (reconcile b (now id)) as [l bu r tk lu].
  cbn [Limit Burst Refill tokens] in *. subst.
  unfold with_lastUpdate, NewBucket. cbn [Limit Burst Refill tokens lastUpdate].
  congruence.
Qed.

(** X17. [Purge] cannot be seen through the calls that follow. For an id
    whose bucket has the manager's configuration and was last used before
    [Purge] visits it, [DrawAt], [TokensAt], [CanDrawAt] and [DrawMaxAt]
    at a later instant answer the same on the purged registry as on the
    registry as it was, whether the entry was removed or kept, and the
    draw leaves the same bucket under the id. *)
Theorem Purge_is_transparent (now : string -> time.Time) (m : BucketManager)
    (id : string) (t : time.Time) (n : Z) :
  purge_safe m id (now id) t -> now id <= t ->
  let purged := snd (Manager.Purge now m) in
  fst (Manager.DrawAt id t n purged) = fst (Manager.DrawAt id t n m)
  /\ buckets (snd (Manager.DrawAt id t n purged)) !! id
     = buckets (snd (Manager.DrawAt id t n m)) !! id
  /\ fst (Manager.TokensAt id t purged) = fst (Manager.TokensAt id t m)
  /\ fst (Manager.CanDrawAt id t n purged) = fst (Manager.CanDrawAt id t n m)
  /\ fst (Manager.DrawMaxAt id t n purged) = fst (Manager.DrawMaxAt id t n m).
Proof.
  intros Hsafe Ht purged. subst purged.
  pose proof (reconcile_purged now m id t Hsafe Ht) as H.
  unfold Manager.DrawAt, Manager.TokensAt, Manager.CanDrawAt, Manager.DrawMaxAt.
  rewrite !on_bucket_spec. cbn [fst snd buckets with_buckets].
  rewrite !lookup_insert_eq.
  rewrite !DrawAt_reconcile, !TokensAt_reconcile, !CanDrawAt_reconcile,
    !DrawMaxAt_reconcile.
  cbv zeta. rewrite H. repeat split.
Qed.

Lemma Purge_is_transparent_witness :
  let t0 := 63900000000 * time.Second in
  let m := snd (Manager.TokensAt "a" t0 (New 5 20 time.Second)) in
  let now := fun _ : string => t0 + 1 in
  let t := t0 + 2 * time.Second in
  let purged := snd (Manager.Purge now m) in
  fst (Manager.DrawAt "a" t 3 purged) = fst (Manager.DrawAt "a" t 3 m)
  /\ buckets (snd (Manager.DrawAt "a" t 3 purged)) !! "a"
     = buckets (snd (Manager.DrawAt "a" t 3 m)) !! "a"
  /\ fst (Manager.TokensAt "a" t purged) = fst (Manager.TokensAt "a" t m)
  /\ fst (Manager.CanDrawAt "a" t 3 purged) = fst (Manager.CanDrawAt "a" t 3 m)
  /\ fst (Manager.DrawMaxAt "a" t 3 purged) = fst (Manager.DrawMaxAt "a" t 3 m).
Proof.
  apply (Purge_is_transparent (fun _ : string => 63900000000 * time.Second + 1)
           (snd (Manager.TokensAt "a" (63900000000 * time.Second) (New 5 20 time.Second)))
           "a" (63900000000 * time.Second + 2 * time.Second) 3).
  - concrete.
  - concrete.
Defined.

(** ** The registry's pointers: what a manager method changes *)

(** A method on a registered id runs on the bucket its pointer leads to. *)
Lemma on_bucket_registered {A : Type} (id : string) (op : State Bucket A)
    (s : Shared.Memory) (p : Shared.ptr) (b : Bucket) :
  Shared.buckets (Shared.manager s) !! id = Some p ->
  Shared.heap s !! p = Some b ->
  Shared.on_bucket id op s
  = (Some (fst (op b)), Shared.with_heap s (<[p := snd (op b)]> (Shared.heap s))).
Proof.
  intros Hid Hp.
  unfold Shared.on_bucket, Shared.getOrCreate, Shared.get, Shared.call, bind, this, ret.
  rewrite Hid, Hp. destruct (op b) as [a b']. reflexivity.
Qed.

(** A method on an id that is not registered makes the bucket first. *)
Lemma on_bucket_unregistered {A : Type} (id : string) (op : State Bucket A)
    (s : Shared.Memory) :
  Shared.buckets (Shared.manager s) !! id = None ->
  let m := Shared.manager s in
  let b := NewBucket (Shared.mLimit m) (Shared.mBurst m) (Shared.mRefill m) in
  Shared.on_bucket id op s
  = (Some (fst (op b)),
     Shared.with_buckets (Shared.with_heap s (Shared.heap s ++ [snd (op b)]))
       (<[id := length (Shared.heap s)]> (Shared.buckets m))).
Proof.
  intros Hid m b.
  unfold Shared.on_bucket, Shared.getOrCreate, Shared.get, Shared.set, Shared.alloc,
    Shared.call, bind, this, ret, store.
  rewrite Hid. cbn [Shared.heap Shared.with_heap Shared.with_buckets Shared.manager].
  rewrite list_lookup_middle by reflexivity. fold m b.
  destruct (op b) as [a b']. cbn [fst snd].
  unfold Shared.with_buckets, Shared.with_heap.
  cbn [Shared.heap Shared.manager Shared.mLimit Shared.mBurst Shared.mRefill Shared.buckets].
  replace (length (Shared.heap s)) with (length (Shared.heap s) + 0)%nat at 1 by lia.
  rewrite insert_app_r. reflexivity.
Qed.

Lemma allocated_lookup (s : Shared.Memory) (id : string) (p : Shared.ptr) :
  allocated s -> Shared.buckets (Shared.manager s) !! id = Some p ->
  exists b : Bucket, Shared.heap s !! p = Some b.
Proof.
  intros Hs Hid. apply lookup_lt_is_Some. exact (Hs id p Hid).
Qed.

(** X14. A manager method acts on one bucket, the one its id leads to.
    In a memory where every registered pointer leads to a bucket,
    [m.Op(id, ...)] answers what the bucket method answers on the bucket
    that [id] leads to (a new full bucket with the manager's configuration
    when [id] is not registered) and leaves that bucket as the method
    leaves it. No other id changes its pointer, and no other bucket of
    the heap changes. So an id that holds the same pointer as [id] shows
    the bucket as the method left it, and every id that holds another
    pointer, or none, shows what it showed before. *)
Theorem manager_method_acts_through_its_pointer {A : Type}
    (id : string) (op : State Bucket A) (s : Shared.Memory) :
  allocated s ->
  let m := Shared.manager s in
  let b := default (NewBucket (Shared.mLimit m) (Shared.mBurst m) (Shared.mRefill m))
                   (bucket_at s id) in
  let s' := snd (Shared.on_bucket id op s) in
  let m' := Shared.manager s' in
  fst (Shared.on_bucket id op s) = Some (fst (op b))
  /\ bucket_at s' id = Some (snd (op b))
  /\ (forall id' : string, id' <> id ->
        Shared.buckets m' !! id' = Shared.buckets m !! id')
  /\ (forall id' : string,
        Shared.buckets m' !! id' = Shared.buckets m' !! id ->
        bucket_at s' id' = Some (snd (op b)))
  /\ (forall id' : string,
        Shared.buckets m' !! id' <> Shared.buckets m' !! id ->
        bucket_at s' id' = bucket_at s id')
  /\ (forall p : Shared.ptr, Shared.buckets m' !! id <> Some p ->
        (p < length (Shared.heap s))%nat ->
        Shared.heap s' !! p = Shared.heap s !! p)
  /\ (Shared.mLimit m' = Shared.mLimit m /\ Shared.mBurst m' = Shared.mBurst m
      /\ Shared.mRefill m' = Shared.mRefill m)
  /\ allocated s'.
Proof.
  intros Hs m b s' m'. subst m b s' m'.
  destruct (Shared.buckets (Shared.manager s) !! id) as [p |] eqn:Hid.
  - destruct (allocated_lookup s id p Hs Hid) as [b Hp].
    assert (Hb : bucket_at s id = Some b) by (unfold bucket_at; rewrite Hid; exact Hp).
    rewrite !Hb. cbn [default from_option]. unfold Datatypes.id.
    rewrite (on_bucket_registered id op s p b Hid Hp). cbn [fst snd].
    assert (Hlt : (p < length (Shared.heap s))%nat) by (eapply lookup_lt_Some, Hp).
    unfold bucket_at. cbn [Shared.with_heap Shared.heap Shared.manager].
    rewrite Hid.
    split; [reflexivity |].
    split; [apply list_lookup_insert_eq, Hlt |].
    split; [reflexivity |].
    split; [intros id' ->; apply list_lookup_insert_eq, Hlt |].
    split.
    { intros id' Hne. destruct (Shared.buckets (Shared.manager s) !! id') as [p' |]; [| reflexivity].
      apply list_lookup_insert_ne. congruence. }
    split; [intros p' Hne _; apply list_lookup_insert_ne; congruence |].
    split; [repeat split |].
    intros id' p' Hid'. cbn [Shared.with_heap Shared.heap Shared.manager] in *.
    rewrite length_insert. exact (Hs id' p' Hid').
  - assert (Hb : bucket_at s id = None) by (unfold bucket_at; rewrite Hid; reflexivity).
    rewrite !Hb. cbn [default from_option]. unfold Datatypes.id.
    rewrite (on_bucket_unregistered id op s Hid). cbv zeta. cbn [fst snd].
    set (b := NewBucket (Shared.mLimit (Shared.manager s)) (Shared.mBurst (Shared.manager s))
                (Shared.mRefill (Shared.manager s))).
    unfold bucket_at.
    cbn [Shared.with_heap Shared.with_buckets Shared.heap Shared.manager Shared.buckets
         Shared.mLimit Shared.mBurst Shared.mRefill].
    rewrite lookup_insert_eq.
    assert (Hnew : (Shared.heap s ++ [snd (op b)]) !! length (Shared.heap s)
                   = Some (snd (op b))) by (apply list_lookup_middle; reflexivity).
    split; [reflexivity |].
    split; [exact Hnew |].
    split; [intros id' Hne; apply lookup_insert_ne; congruence |].
    split; [intros id' ->; exact Hnew |].
    split.
    { intros id' Hne. destruct (decide (id' = id)) as [-> | Hne'].
      - rewrite lookup_insert_eq in Hne. congruence.
      - rewrite lookup_insert_ne by congruence.
        destruct (Shared.buckets (Shared.manager s) !! id') as [p' |] eqn:Hid'; [| reflexivity].
        apply lookup_app_l. exact (Hs id' p' Hid'). }
    split; [intros p' _ Hlt; apply lookup_app_l, Hlt |].
    split; [repeat split |].
    intros id' p' Hid'.
    cbn [Shared.with_heap Shared.with_buckets Shared.heap Shared.manager Shared.buckets] in *.
    rewrite length_app. cbn [length].
    destruct (decide (id' = id)) as [-> | Hne'].
    + rewrite lookup_insert_eq in Hid'. injection Hid' as <-. lia.
    + rewrite lookup_insert_ne in Hid' by congruence.
      pose proof (Hs id' p' Hid') as Hlt. cbv beta in Hlt. lia.
Qed.

(** ** A pointer from [Get] *)

Lemma call_allocated {A : Type} (p : Shared.ptr) (op : State Bucket A)
    (s : Shared.Memory) (b : Bucket) :
  Shared.heap s !! p = Some b ->
  Shared.call p op s
  = (Some (fst (op b)), Shared.with_heap s (<[p := snd (op b)]> (Shared.heap s))).
Proof.
  intros Hp. unfold Shared.call, bind, this, ret. rewrite Hp.
  destruct (op b) as [a b']. reflexivity.
Qed.

Lemma Get_registers (id : string) (s : Shared.Memory) :
  allocated s ->
  let m := Shared.manager s in
  let b := default (NewBucket (Shared.mLimit m) (Shared.mBurst m) (Shared.mRefill m))
                   (bucket_at s id) in
  let p := fst (Shared.Get id s) in
  let s1 := snd (Shared.Get id s) in
  Shared.buckets (Shared.manager s1) !! id = Some p
  /\ Shared.heap s1 !! p = Some b
  /\ (Shared.buckets m !! id = Some p -> s1 = s)
  /\ (Shared.buckets m !! id = None ->
        p = length (Shared.heap s)
        /\ s1 = Shared.with_buckets (Shared.with_heap s (Shared.heap s ++ [b]))
                  (<[id := p]> (Shared.buckets m))).
Proof.
  intros Hs m b p s1. subst m b p s1.
  unfold Shared.Get, Shared.getOrCreate, Shared.get, Shared.set, Shared.alloc,
    bucket_at, bind, this, ret, store.
  destruct (Shared.buckets (Shared.manager s) !! id) as [p |] eqn:Hid; cbn [fst snd].
  - destruct (allocated_lookup s id p Hs Hid) as [b Hp]. rewrite Hp.
    split; [exact Hid |]. split; [reflexivity |]. split; [reflexivity |].
    intros H. discriminate H.
  - cbn [default from_option Shared.heap Shared.manager Shared.buckets
         Shared.with_heap Shared.with_buckets].
    split; [apply lookup_insert_eq |].
    split; [apply list_lookup_middle; reflexivity |].
    split; [intros H; discriminate H |].
    intros _. split; reflexivity.
Qed.

Lemma Get_config (id : string) (s : Shared.Memory) :
  Shared.mLimit (Shared.manager (snd (Shared.Get id s))) = Shared.mLimit (Shared.manager s)
  /\ Shared.mBurst (Shared.manager (snd (Shared.Get id s))) = Shared.mBurst (Shared.manager s)
  /\ Shared.mRefill (Shared.manager (snd (Shared.Get id s))) = Shared.mRefill (Shared.manager s).
Proof.
  unfold Shared.Get, Shared.getOrCreate, Shared.get, bind, this, ret.
  destruct (Shared.buckets (Shared.manager s) !! id); repeat split.
Qed.

(** X18. The pointer that [Get] returns is the registry's. [Get] twice
    gives the same pointer and changes nothing the second time. What a
    bucket method does through the pointer, the manager's next method
    under the id sees, and what the manager's method does, the next call
    through the pointer sees. After [Delete] the pointer still leads to
    its bucket, and the manager starts a new one under the id. *)
Theorem pointer_from_Get_shares_the_bucket {A B : Type}
    (id : string) (op : State Bucket A) (op' : State Bucket B) (s : Shared.Memory) :
  allocated s ->
  let m := Shared.manager s in
  let new := NewBucket (Shared.mLimit m) (Shared.mBurst m) (Shared.mRefill m) in
  let b := default new (bucket_at s id) in
  let p := fst (Shared.Get id s) in
  let s1 := snd (Shared.Get id s) in
  Shared.heap s1 !! p = Some b
  /\ Shared.Get id s1 = (p, s1)
  /\ fst (Shared.call p op s1) = Some (fst (op b))
  /\ fst (Shared.on_bucket id op' (snd (Shared.call p op s1)))
     = Some (fst (op' (snd (op b))))
  /\ fst (Shared.call p op' (snd (Shared.on_bucket id op s1)))
     = Some (fst (op' (snd (op b))))
  /\ fst (Shared.call p op (snd (Shared.Delete id s1))) = Some (fst (op b))
  /\ fst (Shared.on_bucket id op' (snd (Shared.call p op (snd (Shared.Delete id s1)))))
     = Some (fst (op' new)).
Proof.
  intros Hs m new b p s1.
  destruct (Get_registers id s Hs) as (Hid & Hp & _).
  destruct (Get_config id s) as (HL & HB & HR).
  fold m new b p s1 in Hid, Hp, HL, HB, HR.
  clearbody b p s1.
  split; [exact Hp |].
  split.
  { unfold Shared.Get, Shared.getOrCreate, Shared.get, bind, this, ret.
    rewrite Hid. reflexivity. }
  rewrite (call_allocated p op s1 b Hp). cbn [fst snd].
  split; [reflexivity |].
  split.
  { rewrite (on_bucket_registered id op' _ p (snd (op b))).
    - reflexivity.
    - exact Hid.
    - apply list_lookup_insert_eq. eapply lookup_lt_Some, Hp. }
  split.
  { rewrite (on_bucket_registered id op s1 p b Hid Hp). cbn [snd].
    rewrite (call_allocated p op' _ (snd (op b))); [reflexivity |].
    apply list_lookup_insert_eq. eapply lookup_lt_Some, Hp. }
  assert (Hdel : Shared.heap (snd (Shared.Delete id s1)) !! p = Some b) by exact Hp.
  rewrite (call_allocated p op _ b Hdel). cbn [fst snd].
  split; [reflexivity |].
  rewrite on_bucket_unregistered.
  - cbv zeta. cbn [fst Shared.with_heap Shared.manager Shared.Delete Shared.delete
                     Shared.with_buckets Shared.mLimit Shared.mBurst Shared.mRefill].
    unfold Shared.Delete, Shared.delete, bind, this, store.
    cbn [snd Shared.with_buckets Shared.manager Shared.mLimit Shared.mBurst Shared.mRefill].
    rewrite HL, HB, HR. reflexivity.
  - cbn. apply lookup_delete_eq.
Qed.

(** ** The registry of bucket states as the view of an unshared memory *)

Lemma view_lookup (s : Shared.Memory) (id : string) :
  buckets (view s) !! id = bucket_at s id.
Proof.
  unfold view, bucket_at. cbn [buckets]. rewrite lookup_omap.
  destruct (Shared.buckets (Shared.manager s) !! id); reflexivity.
Qed.

Lemma view_eq (s : Shared.Memory) (m : BucketManager) :
  mLimit m = Shared.mLimit (Shared.manager s) ->
  mBurst m = Shared.mBurst (Shared.manager s) ->
  mRefill m = Shared.mRefill (Shared.manager s) ->
  (forall id : string, buckets m !! id = bucket_at s id) ->
  view s = m.
Proof.
  intros HL HB HR Hbs. destruct m as [l bu r bs]. cbn in *. subst.
  unfold view. f_equal. apply map_eq. intros id.
  rewrite Hbs. apply (view_lookup s id).
Qed.

Lemma bucket_of_view (s : Shared.Memory) (id : string) :
  bucket_of (view s) id
  = default (NewBucket (Shared.mLimit (Shared.manager s)) (Shared.mBurst (Shared.manager s))
               (Shared.mRefill (Shared.manager s))) (bucket_at s id).
Proof. unfold bucket_of. rewrite view_lookup. reflexivity. Qed.

Lemma on_bucket_view {A : Type} (id : string) (op : State Bucket A) (s : Shared.Memory) :
  allocated s -> unshared s ->
  let s' := snd (Shared.on_bucket id op s) in
  fst (Shared.on_bucket id op s) = Some (fst (Manager.on_bucket id op (view s)))
  /\ view s' = snd (Manager.on_bucket id op (view s))
  /\ allocated s' /\ unshared s'.
Proof.
  intros Hs Hu s'. subst s'.
  rewrite on_bucket_spec, bucket_of_view. cbn [fst snd].
  destruct (Shared.buckets (Shared.manager s) !! id) as [p |] eqn:Hid.
  - destruct (allocated_lookup s id p Hs Hid) as [b Hp].
    assert (Hb : bucket_at s id = Some b) by (unfold bucket_at; rewrite Hid; exact Hp).
    assert (Hlt : (p < length (Shared.heap s))%nat) by (eapply lookup_lt_Some, Hp).
    rewrite Hb. cbn [default from_option]. unfold Datatypes.id.
    rewrite (on_bucket_registered id op s p b Hid Hp). cbn [fst snd].
    split; [reflexivity |]. split; [| split].
    + apply view_eq; try reflexivity.
      intros id'. cbn [buckets with_buckets]. unfold bucket_at.
      cbn [Shared.with_heap Shared.heap Shared.manager].
      destruct (decide (id' = id)) as [-> | Hne].
      * rewrite lookup_insert_eq, Hid. symmetry. apply list_lookup_insert_eq, Hlt.
      * rewrite lookup_insert_ne by congruence. rewrite view_lookup. unfold bucket_at.
        destruct (Shared.buckets (Shared.manager s) !! id') as [p' |] eqn:Hid';
          [| reflexivity].
        symmetry. apply list_lookup_insert_ne. intros ->. apply Hne.
        exact (Hu id' id p' Hid' Hid).
    + intros id' p' Hid'. cbn [Shared.with_heap Shared.heap Shared.manager] in *.
      rewrite length_insert. exact (Hs id' p' Hid').
    + exact Hu.
  - assert (Hb : bucket_at s id = None) by (unfold bucket_at; rewrite Hid; reflexivity).
    rewrite Hb. cbn [default from_option]. unfold Datatypes.id.
    rewrite (on_bucket_unregistered id op s Hid). cbv zeta. cbn [fst snd].
    set (b := NewBucket (Shared.mLimit (Shared.manager s)) (Shared.mBurst (Shared.manager s))
                (Shared.mRefill (Shared.manager s))).
    split; [reflexivity |]. split; [| split].
    + apply view_eq; try reflexivity.
      intros id'. cbn [buckets with_buckets]. unfold bucket_at.
      cbn [Shared.with_heap Shared.with_buckets Shared.heap Shared.manager Shared.buckets].
      destruct (decide (id' = id)) as [-> | Hne].
      * rewrite !lookup_insert_eq. symmetry. apply list_lookup_middle. reflexivity.
      * rewrite !lookup_insert_ne by congruence. rewrite view_lookup. unfold bucket_at.
        destruct (Shared.buckets (Shared.manager s) !! id') as [p' |] eqn:Hid';
          [| reflexivity].
        symmetry. apply lookup_app_l. exact (Hs id' p' Hid').
    + intros id' p' Hid'.
      cbn [Shared.with_heap Shared.with_buckets Shared.heap Shared.manager Shared.buckets] in *.
      rewrite length_app. cbn [length].
      destruct (decide (id' = id)) as [-> | Hne'].
      * rewrite lookup_insert_eq in Hid'. injection Hid' as <-. lia.
      * rewrite lookup_insert_ne in Hid' by congruence.
        pose proof (Hs id' p' Hid') as Hlt. cbv beta in Hlt. lia.
    + intros id1 id2 q H1 H2.
      cbn [Shared.with_heap Shared.with_buckets Shared.heap Shared.manager Shared.buckets] in *.
      destruct (decide (id1 = id)) as [-> | Hne1], (decide (id2 = id)) as [-> | Hne2];
        try reflexivity.
      * rewrite lookup_insert_eq in H1. rewrite lookup_insert_ne in H2 by congruence.
        injection H1 as <-. pose proof (Hs id2 _ H2) as Hlt. cbv beta in Hlt. lia.
      * rewrite lookup_insert_eq in H2. rewrite lookup_insert_ne in H1 by congruence.
        injection H2 as <-. pose proof (Hs id1 _ H1) as Hlt. cbv beta in Hlt. lia.
      * rewrite lookup_insert_ne in H1, H2 by congruence. exact (Hu id1 id2 q H1 H2).
Qed.

Lemma Get_view (id : string) (s : Shared.Memory) :
  allocated s -> unshared s ->
  let p := fst (Shared.Get id s) in
  let s1 := snd (Shared.Get id s) in
  Shared.heap s1 !! p = Some (fst (Manager.Get id (view s)))
  /\ view s1 = snd (Manager.Get id (view s))
  /\ allocated s1 /\ unshared s1.
Proof.
  intros Hs Hu p s1.
  destruct (on_bucket_view id (ret tt) s Hs Hu) as (_ & Hview & Hs' & Hu').
  assert (Hsame : snd (Shared.on_bucket id (ret tt) s) = s1).
  { subst s1. unfold Shared.on_bucket, Shared.Get, bind.
    pose proof (Get_registers id s Hs) as (_ & Hp & _). cbv zeta in Hp.
    destruct (Shared.getOrCreate id s) as [q s1] eqn:Hget.
    unfold Shared.Get in Hp. rewrite Hget in Hp. cbn [fst snd] in Hp |- *.
    rewrite (call_allocated q (ret tt) s1 _ Hp). cbn [fst snd ret].
    unfold ret. cbn [snd]. rewrite list_insert_id by exact Hp.
    destruct s1. reflexivity. }
  rewrite Hsame in Hview, Hs', Hu'.
  pose proof (Get_registers id s Hs) as (_ & Hp & _). cbv zeta in Hp. fold p s1 in Hp.
  unfold Manager.Get. rewrite getOrCreate_spec, bucket_of_view. cbn [fst snd].
  split; [exact Hp |]. split; [| split; assumption].
  rewrite Hview, on_bucket_spec, bucket_of_view. reflexivity.
Qed.

Lemma Set_view (id : string) (p : Shared.ptr) (b : Bucket) (s : Shared.Memory) :
  allocated s -> unshared s ->
  Shared.heap s !! p = Some b ->
  (forall id' : string, Shared.buckets (Shared.manager s) !! id' = Some p -> id' = id) ->
  let s' := snd (Shared.Set_ id p s) in
  view s' = snd (Manager.Set_ id b (view s))
  /\ allocated s' /\ unshared s'.
Proof.
  intros Hs Hu Hp Hown s'. subst s'.
  unfold Shared.Set_, Shared.set, Manager.Set_, Manager.set, bind, this, store.
  cbn [snd]. split; [| split].
  - unfold view, with_buckets, Shared.with_buckets.
    cbn [Shared.heap Shared.manager Shared.buckets Shared.mLimit Shared.mBurst
         Shared.mRefill mLimit mBurst mRefill buckets].
    f_equal. apply omap_insert_Some. exact Hp.
  - intros id' p' Hid'. cbn [Shared.with_buckets Shared.heap Shared.manager Shared.buckets] in *.
    destruct (decide (id' = id)) as [-> | Hne].
    + rewrite lookup_insert_eq in Hid'. injection Hid' as <-.
      eapply lookup_lt_Some, Hp.
    + rewrite lookup_insert_ne in Hid' by congruence. exact (Hs id' p' Hid').
  - intros id1 id2 q H1 H2.
    cbn [Shared.with_buckets Shared.heap Shared.manager Shared.buckets] in *.
    destruct (decide (id1 = id)) as [-> | Hne1], (decide (id2 = id)) as [-> | Hne2];
      try reflexivity.
    + rewrite lookup_insert_eq in H1. rewrite lookup_insert_ne in H2 by congruence.
      injection H1 as <-. exfalso. apply Hne2, Hown, H2.
    + rewrite lookup_insert_eq in H2. rewrite lookup_insert_ne in H1 by congruence.
      injection H2 as <-. exfalso. apply Hne1, Hown, H1.
    + rewrite lookup_insert_ne in H1, H2 by congruence. exact (Hu id1 id2 q H1 H2).
Qed.

Lemma Delete_view (id : string) (s : Shared.Memory) :
  allocated s -> unshared s ->
  let s' := snd (Shared.Delete id s) in
  view s' = snd (Manager.Delete id (view s))
  /\ allocated s' /\ unshared s'.
Proof.
  intros Hs Hu s'. subst s'.
  unfold Shared.Delete, Shared.delete, Manager.Delete, Manager.delete, bind, this, store.
  cbn [snd]. split; [| split].
  - unfold view, with_buckets, Shared.with_buckets.
    cbn [Shared.heap Shared.manager Shared.buckets Shared.mLimit Shared.mBurst
         Shared.mRefill mLimit mBurst mRefill buckets].
    f_equal. apply omap_delete.
  - intros id' p' Hid'. cbn [Shared.with_buckets Shared.heap Shared.manager Shared.buckets] in *.
    apply lookup_delete_Some in Hid' as [_ Hid']. exact (Hs id' p' Hid').
  - intros id1 id2 q H1 H2.
    cbn [Shared.with_buckets Shared.heap Shared.manager Shared.buckets] in *.
    apply lookup_delete_Some in H1 as [_ H1]. apply lookup_delete_Some in H2 as [_ H2].
    exact (Hu id1 id2 q H1 H2).
Qed.

(** ** [Purge] in the order of [range] *)



(** ** Closed memories *)

Lemma NoDup_fmap_eq {X Y : Type} (f : X -> Y) (l : list X) (x y : X) :
  NoDup (f <$> l) -> x ∈ l -> y ∈ l -> f x = f y -> x = y.
Proof.
  induction l as [| a l IH]; intros Hnd Hx Hy Hf.
  - apply elem_of_nil in Hx. contradiction.
  - cbn [fmap list_fmap] in Hnd. apply NoDup_cons in Hnd as [Ha Hnd].
    apply elem_of_cons in Hx as [-> | Hx]; apply elem_of_cons in Hy as [-> | Hy].
    + reflexivity.
    + exfalso. apply Ha. rewrite Hf. apply list_elem_of_fmap_2, Hy.
    + exfalso. apply Ha. rewrite <- Hf. apply list_elem_of_fmap_2, Hx.
    + apply IH; assumption.
Qed.

(** The pointers of the registry, listed, show whether a bucket is shared. *)
Lemma unshared_by_listing (s : Shared.Memory) :
  NoDup ((map_to_list (Shared.buckets (Shared.manager s))).*2) -> unshared s.
Proof.
  intros Hnd id1 id2 p H1 H2.
  apply elem_of_map_to_list in H1, H2.
  pose proof (NoDup_fmap_eq snd _ (id1, p) (id2, p) Hnd H1 H2 eq_refl) as Heq.
  congruence.
Qed.

Ltac closed_memory :=
  first [ apply unshared_by_listing | idtac ];
  apply (bool_decide_unpack _); vm_compute; exact I.

Lemma manager_method_acts_through_its_pointer_witness :
  let t := 63900000000 * time.Second in
  let s := {| Shared.heap := []; Shared.manager := Shared.New 5 20 time.Second |} in
  let s2 := snd (Shared.Set_ "y" (fst (Shared.Get "x" s)) (snd (Shared.Get "x" s))) in
  let s' := snd (Shared.DrawAt "x" t 5 s2) in
  fst (Shared.DrawAt "x" t 5 s2) = Some true
  /\ tokens <$> bucket_at s' "x" = Some 15
  /\ tokens <$> bucket_at s' "y" = Some 15.
Proof.
  intros t s s2 s'.
  assert (Hs : allocated s2) by closed_memory.
  destruct (manager_method_acts_through_its_pointer "x" (DrawAt t 5) s2 Hs)
    as (Hret & Hown & _ & Hshared & _).
  split; [exact Hret |].
  split.
  - subst s'. unfold Shared.DrawAt. rewrite Hown. vm_compute. reflexivity.
  - subst s'. unfold Shared.DrawAt. rewrite (Hshared "y").
    + vm_compute. reflexivity.
    + vm_compute. reflexivity.
Defined.

Lemma pointer_from_Get_shares_the_bucket_witness :
  let t := 63900000000 * time.Second in
  let s := {| Shared.heap := []; Shared.manager := Shared.New 5 20 time.Second |} in
  let p := fst (Shared.Get "x" s) in
  let s1 := snd (Shared.Get "x" s) in
  fst (Shared.TokensAt "x" t (snd (Shared.call p (DrawAt t 5) s1))) = Some 15
  /\ fst (Shared.call p (TokensAt t) (snd (Shared.DrawAt "x" t 5 s1))) = Some 15
  /\ fst (Shared.TokensAt "x" t
            (snd (Shared.call p (DrawAt t 5) (snd (Shared.Delete "x" s1))))) = Some 20.
Proof.
  intros t s p s1.
  assert (Hs : allocated s) by closed_memory.
  destruct (pointer_from_Get_shares_the_bucket "x" (DrawAt t 5) (TokensAt t) s Hs)
    as (_ & _ & _ & Hthrough & Hback & _ & Hdeleted).
  split; [exact Hthrough |]. split; [exact Hback | exact Hdeleted].
Defined.

(** X19. A memory in which no bucket is held under two ids behaves as the
    registry of bucket states it shows. A manager method answers the same
    on both and leaves memories that show the same registry; so do [Get]
    (the pointer leads to the state the registry returns), [Delete], and
    [Set] of a pointer that no other id holds. Each of them keeps every
    registered pointer leading to a bucket and no bucket shared. *)
Theorem unshared_memory_is_registry_of_states {A : Type}
    (id : string) (op : State Bucket A) (s : Shared.Memory) :
  allocated s -> unshared s ->
  (let s' := snd (Shared.on_bucket id op s) in
   fst (Shared.on_bucket id op s) = Some (fst (Manager.on_bucket id op (view s)))
   /\ view s' = snd (Manager.on_bucket id op (view s))
   /\ allocated s' /\ unshared s')
  /\ (let p := fst (Shared.Get id s) in
      let s' := snd (Shared.Get id s) in
      Shared.heap s' !! p = Some (fst (Manager.Get id (view s)))
      /\ view s' = snd (Manager.Get id (view s))
      /\ allocated s' /\ unshared s')
  /\ (let s' := snd (Shared.Delete id s) in
      view s' = snd (Manager.Delete id (view s))
      /\ allocated s' /\ unshared s')
  /\ (forall (p : Shared.ptr) (b : Bucket),
        Shared.heap s !! p = Some b ->
        (forall id' : string,
            Shared.buckets (Shared.manager s) !! id' = Some p -> id' = id) ->
        let s' := snd (Shared.Set_ id p s) in
        view s' = snd (Manager.Set_ id b (view s))
        /\ allocated s' /\ unshared s').
Proof.
  intros Hs Hu.
  split; [exact (on_bucket_view id op s Hs Hu) |].
  split; [exact (Get_view id s Hs Hu) |].
  split; [exact (Delete_view id s Hs Hu) |].
  intros p b Hp Hown. exact (Set_view id p b s Hs Hu Hp Hown).
Qed.

Lemma unshared_memory_is_registry_of_states_witness :
  let t := 63900000000 * time.Second in
  let s := snd (Shared.TokensAt "a" t
                  {| Shared.heap := []; Shared.manager := Shared.New 5 20 time.Second |}) in
  fst (Shared.on_bucket "b" (DrawAt t 3) s)
  = Some (fst (Manager.on_bucket "b" (DrawAt t 3) (view s)))
  /\ view (snd (Shared.on_bucket "b" (DrawAt t 3) s))
     = snd (Manager.on_bucket "b" (DrawAt t 3) (view s)).
Proof.
  intros t s.
  assert (Hs : allocated s) by closed_memory.
  assert (Hu : unshared s) by closed_memory.
  destruct (unshared_memory_is_registry_of_states "b" (DrawAt t 3) s Hs Hu)
    as ((Hret & Hview & _) & _).
  split; [exact Hret | exact Hview].
Defined.


(** With a bucket held under two ids the outcome of [Purge] depends on
    the order of [range]: visited under ["x"] three seconds after it was
    emptied and under ["y"] one second later, the bucket is full at the
    second visit only, and ["x"] stays when it is visited first. *)
Lemma Purge_order_matters_when_shared :
  let t := 63900000000 * time.Second in
  let s := {| Shared.heap := [scenario_bucket 0 t];
              Shared.manager :=
                {| Shared.mLimit := 5; Shared.mBurst := 20;
                   Shared.mRefill := time.Second;
                   Shared.buckets := <["y" := 0%nat]> {["x" := 0%nat]} |} |} in
  let now := fun id : string =>
               if String.eqb id "x" then t + 3 * time.Second
               else t + 4 * time.Second in
  let kept := fun order : list (string * Shared.ptr) =>
                (map_to_list (Shared.buckets (Shared.manager
                                (snd (Shared.Purge now order s))))).*1 in
  kept [("x", 0%nat); ("y", 0%nat)] = ["x"]
  /\ kept [("y", 0%nat); ("x", 0%nat)] = [].
Proof. vm_compute. split; reflexivity. Qed.
